(** * pengu_sum: the extractive pipeline of [nltk_summarizer.PDFSummarizer]

    A shallow embedding of [src/nltk_summarizer.py]: the chunker
    ([split_text]), the bounded fan-out engine ([process_concurrently]), the
    sentence and word filters, the frequency scorer, the selector and the
    lexical corrector, with the object's attributes as an explicit record
    that [summarize] threads through an error monad.

    The libraries the class calls (NLTK's tokenizers, the transformers
    pipeline, enchant and wordninja) are not part of the repository; they are
    the fields of a record [Libraries], and each call may fail. *)

From Stdlib Require Import ZArith QArith Lia Ascii String.
From stdpp Require Import base list strings gmap sorting.

Close Scope Q_scope.

(** ** Exceptions and results *)

Inductive exn : Type :=
  | ValueError (msg : string)
  | Raised (what : string).

Inductive result (A : Type) : Type :=
  | Ok (a : A)
  | Err (e : exn).
Arguments Ok {A} a.
Arguments Err {A} e.

#[global] Instance result_ret : MRet result := λ A a, Ok a.
#[global] Instance result_bind : MBind result := λ A B k m,
  match m with
  | Ok a => k a
  | Err e => Err e
  end.

(** [[f(x) for x in l]] where [f] may raise: the first exception wins. *)
Fixpoint mapM {A B} (f : A → result B) (l : list A) : result (list B) :=
  match l with
  | [] => Ok []
  | x :: l' => y ← f x; ys ← mapM f l'; Ok (y :: ys)
  end.

Definition is_Ok {A} (m : result A) : Prop := ∃ a, m = Ok a.
Definition is_Err {A} (m : result A) : Prop := ∃ e, m = Err e.

(** ** Python strings

    A [str] is modelled as a [string] of code points below 256. *)

Module Str.

Fixpoint take (n : nat) (s : string) : string :=
  match n, s with
  | S n', String c s' => String c (take n' s')
  | _, _ => EmptyString
  end.

Fixpoint drop (n : nat) (s : string) : string :=
  match n, s with
  | S n', String _ s' => drop n' s'
  | _, _ => s
  end.

(** [len(s)] as a Python [int]. *)
Definition len (s : string) : Z := Z.of_nat (String.length s).

(** How a slice bound is read: a negative bound counts from the end, and
    every bound is clamped to [0 .. len(s)]. *)
Definition bound (s : string) (k : Z) : nat :=
  Z.to_nat (if (k <? 0)%Z then Z.max (k + len s) 0 else Z.min k (len s)).

(** [s[lo:hi]] *)
Definition slice (s : string) (lo hi : Z) : string :=
  String.substring (bound s lo) (bound s hi - bound s lo) s.

(** [sep.join(l)] *)
Fixpoint join (sep : string) (l : list string) : string :=
  match l with
  | [] => ""
  | [x] => x
  | x :: l' => x +:+ sep +:+ join sep l'
  end.

(** ["".join(l)] unfolds to plain concatenation. *)
Fixpoint cat (l : list string) : string :=
  match l with
  | [] => ""
  | x :: l' => x +:+ cat l'
  end.

(** [needle in hay] *)
Fixpoint contains (needle hay : string) : bool :=
  if String.prefix needle hay then true
  else match hay with
       | EmptyString => false
       | String _ hay' => contains needle hay'
       end.

(** [str.lower] on code points below 256: A-Z and the Latin-1 capitals. *)
Definition lower_char (c : ascii) : ascii :=
  let n := nat_of_ascii c in
  if (((65 <=? n) && (n <=? 90)) || ((192 <=? n) && (n <=? 222) && negb (n =? 215)))%nat
  then ascii_of_nat (n + 32) else c.

Fixpoint lower (s : string) : string :=
  match s with
  | EmptyString => EmptyString
  | String c s' => String (lower_char c) (lower s')
  end.

(** What [\s] and [str.strip] treat as white space, below 256. *)
Definition is_space (c : ascii) : bool :=
  let n := nat_of_ascii c in
  (((9 <=? n) && (n <=? 13)) || ((28 <=? n) && (n <=? 32)) || (n =? 133) || (n =? 160))%nat.

(** [re.sub("\s+", " ", s)]: each maximal run of white space becomes one
    blank. [in_run] tells that the previous character was white space. *)
Fixpoint collapse_from (in_run : bool) (s : string) : string :=
  match s with
  | EmptyString => EmptyString
  | String c s' =>
      if is_space c
      then (if in_run then collapse_from true s' else String " " (collapse_from true s'))
      else String c (collapse_from false s')
  end.

Definition collapse (s : string) : string := collapse_from false s.

Fixpoint lstrip (s : string) : string :=
  match s with
  | String c s' => if is_space c then lstrip s' else s
  | EmptyString => EmptyString
  end.

Fixpoint rstrip (s : string) : string :=
  match s with
  | EmptyString => EmptyString
  | String c s' =>
      match rstrip s' with
      | EmptyString => if is_space c then EmptyString else String c EmptyString
      | r => String c r
      end
  end.

Definition strip (s : string) : string := rstrip (lstrip s).

(** [needle] occurs in [hay] *)
Definition occurs (needle hay : string) : Prop :=
  ∃ pre post, hay = pre +:+ needle +:+ post.

End Str.

(** ** [range(start, stop, step)] *)

Fixpoint range_up (fuel : nat) (i stop step : Z) : list Z :=
  match fuel with
  | O => []
  | S fuel' => if (i <? stop)%Z then i :: range_up fuel' (i + step) stop step else []
  end.

Fixpoint range_down (fuel : nat) (i stop step : Z) : list Z :=
  match fuel with
  | O => []
  | S fuel' => if (stop <? i)%Z then i :: range_down fuel' (i + step) stop step else []
  end.

(** The fuel is the distance to cover: each step moves by at least one. *)
Definition range (start stop step : Z) : result (list Z) :=
  if (step =? 0)%Z then Err (ValueError "range() arg 3 must not be zero")
  else if (0 <? step)%Z then Ok (range_up (Z.to_nat (stop - start)) start stop step)
  else Ok (range_down (Z.to_nat (start - stop)) start stop step).

(** ** The chunker

    [[text[i:i + chunk_size] for i in range(0, len(text), chunk_size)]] *)
Definition split_text (text : string) (chunk_size : Z) : result (list string) :=
  idx ← range 0 (Str.len text) chunk_size;
  Ok (map (λ i, Str.slice text i (i + chunk_size)) idx).

(** [ceil(a / b)] for a positive [b] *)
Definition ceil_div (a b : Z) : Z := ((a + b - 1) / b)%Z.


(** ** Lists as Python sequences *)

(** [islice(l, start, stop)]: skip [start] elements, then give at most
    [stop - start]. *)
Definition islice {A} (l : list A) (start stop : nat) : list A :=
  take (stop - start) (drop start l).

(** [l[lo:hi]] read as the spec words it: the elements whose position [p] has
    [lo <= p < hi], in order. [p] is the position of the head. *)
Fixpoint slice_from {A} (p : nat) (l : list A) (lo hi : nat) : list A :=
  match l with
  | [] => []
  | x :: l' =>
      if ((lo <=? p) && (p <? hi))%nat
      then x :: slice_from (S p) l' lo hi
      else slice_from (S p) l' lo hi
  end.

Definition list_slice {A} (l : list A) (lo hi : nat) : list A := slice_from 0 l lo hi.

(** A loop [for x in l: acc = step(acc, x)] whose body may raise. *)
Fixpoint foldM {A S} (step : S → A → result S) (l : list A) (acc : S) : result S :=
  match l with
  | [] => Ok acc
  | x :: l' => acc' ← step acc x; foldM step l' acc'
  end.

(** ** Numbers

    Frequencies and scores are Python floats (and the int 0 that [sum] starts
    from). The pipeline only divides two counts, adds and compares, so the
    embedding is generic in the number type; [Q] gives exact instances. *)
Class Number (R : Type) := {
  zero : R;
  add : R → R → R;
  ratio : nat → nat → R;
  ltb : R → R → bool;
}.

#[global] Instance Q_Number : Number Q := {|
  zero := 0%Q;
  add := λ x y, Qred (x + y)%Q;
  ratio := λ a b, Qred (inject_Z (Z.of_nat a) / inject_Z (Z.of_nat b))%Q;
  ltb := λ x y, negb (Qle_bool y x);
|}.

(** [sum(l)] *)
Definition sum `{Number R} (l : list R) : R := foldl add zero l.

(** ** [nltk.FreqDist]: a counter of samples *)

Definition FreqDist (samples : list string) : gmap string nat :=
  foldl (λ fd w, <[w := S (default 0 (fd !! w))]> fd) ∅ samples.

(** [fd[sample]]: a counter gives 0 for a sample it has not seen. *)
Definition fd_count (fd : gmap string nat) (sample : string) : nat :=
  default 0 (fd !! sample).

(** [fd.N()]: the number of samples counted. *)
Definition fd_N (fd : gmap string nat) : nat :=
  map_fold (λ _ c n, c + n) 0 fd.

(** [fd.freq(sample)] *)
Definition fd_freq `{Number R} (fd : gmap string nat) (sample : string) : R :=
  let n := fd_N fd in
  if (n =? 0)%nat then zero else ratio (fd_count fd sample) n.

(** ** [OrderedDict]: keys in the order of their first insertion *)

Fixpoint od_set {V} (d : list (string * V)) (k : string) (v : V) : list (string * V) :=
  match d with
  | [] => [(k, v)]
  | (k', v') :: d' =>
      if String.eqb k' k then (k', v) :: d' else (k', v') :: od_set d' k v
  end.

Fixpoint od_get {V} (d : list (string * V)) (k : string) : option V :=
  match d with
  | [] => None
  | (k', v') :: d' => if String.eqb k' k then Some v' else od_get d' k
  end.

Definition od_keys {V} (d : list (string * V)) : list string := map fst d.

(** [sorted(d, key=d.get, reverse=True)]: the keys by decreasing value; the
    sort is stable, also when reversed, so keys of equal value keep their
    order. An insertion sort with the same outcome. *)
Fixpoint insert_desc `{Number R} (x : string * R) (l : list (string * R)) : list (string * R) :=
  match l with
  | [] => [x]
  | y :: l' => if ltb (snd x) (snd y) then y :: insert_desc x l' else x :: y :: l'
  end.

Definition sorted_desc `{Number R} (d : list (string * R)) : list string :=
  od_keys (foldr insert_desc [] d).

(** ** The libraries behind the class

    None of them belongs to the repository; each call may raise. *)
Record Libraries := {
  sent_tokenize : string → result (list string);
  word_tokenize : string → result (list string);
  (** [self.summarizer(chunk, max_length=.., min_length=.., do_sample=True)[0]["summary_text"]],
      for one outcome of the sampling *)
  summarizer : string → Z → Z → result string;
  (** [enchant.Dict("en_US").check] *)
  dict_check : string → result bool;
  (** [wordninja.split] *)
  wordninja_split : string → result (list string);
}.

(** ** The object *)

Record PDFSummarizer := {
  stop_words : gset string;
  text : string;
  chunks : list string;
  (** the class attribute, until [summarize] assigns it on the instance *)
  CHUNK_SIZE : nat;
  sentences : list string;
  words : list string;
  filtered_sentences : list string;
  filtered_words : list string;
  summary : string;
}.

Definition MAX_LENGTH : Z := 80.
Definition MIN_LENGTH : Z := 30.
Definition NUM_SENTENCES : nat := 20.

Definition set_CHUNK_SIZE (v : nat) (self : PDFSummarizer) : PDFSummarizer :=
  {| stop_words := stop_words self; text := text self; chunks := chunks self;
     CHUNK_SIZE := v; sentences := sentences self; words := words self;
     filtered_sentences := filtered_sentences self;
     filtered_words := filtered_words self; summary := summary self |}.

Definition set_sentences (v : list string) (self : PDFSummarizer) : PDFSummarizer :=
  {| stop_words := stop_words self; text := text self; chunks := chunks self;
     CHUNK_SIZE := CHUNK_SIZE self; sentences := v; words := words self;
     filtered_sentences := filtered_sentences self;
     filtered_words := filtered_words self; summary := summary self |}.

Definition set_words (v : list string) (self : PDFSummarizer) : PDFSummarizer :=
  {| stop_words := stop_words self; text := text self; chunks := chunks self;
     CHUNK_SIZE := CHUNK_SIZE self; sentences := sentences self; words := v;
     filtered_sentences := filtered_sentences self;
     filtered_words := filtered_words self; summary := summary self |}.

Definition set_filtered_sentences (v : list string) (self : PDFSummarizer) : PDFSummarizer :=
  {| stop_words := stop_words self; text := text self; chunks := chunks self;
     CHUNK_SIZE := CHUNK_SIZE self; sentences := sentences self; words := words self;
     filtered_sentences := v;
     filtered_words := filtered_words self; summary := summary self |}.

Definition set_filtered_words (v : list string) (self : PDFSummarizer) : PDFSummarizer :=
  {| stop_words := stop_words self; text := text self; chunks := chunks self;
     CHUNK_SIZE := CHUNK_SIZE self; sentences := sentences self; words := words self;
     filtered_sentences := filtered_sentences self;
     filtered_words := v; summary := summary self |}.

Definition set_summary (v : string) (self : PDFSummarizer) : PDFSummarizer :=
  {| stop_words := stop_words self; text := text self; chunks := chunks self;
     CHUNK_SIZE := CHUNK_SIZE self; sentences := sentences self; words := words self;
     filtered_sentences := filtered_sentences self;
     filtered_words := filtered_words self; summary := v |}.

(** [__init__], after the loader and [_sanitize] produced [text]. The lists
    that [summarize] assigns do not exist yet; they are read only after they
    are written, so they start empty here. *)
Definition init (stop : gset string) (text : string) : result PDFSummarizer :=
  chunks ← split_text text 4096;
  Ok {| stop_words := stop; text := text; chunks := chunks; CHUNK_SIZE := 4096;
        sentences := []; words := []; filtered_sentences := [];
        filtered_words := []; summary := "" |}.

(** ** The bounded fan-out engine

    Worker [i] gets [islice(tokens, i * CHUNK_SIZE, i * CHUNK_SIZE + CHUNK_SIZE)].
    A future holds the outcome of its operation; the outcomes are read in the
    order of submission, and the first one that failed raises. *)
Definition process_concurrently {A B} (self : PDFSummarizer) (tokens : list A)
    (num_threads : Z) (operation : list A → result (list B)) : result (list B) :=
  if (num_threads <=? 0)%Z
  then Err (ValueError "max_workers must be greater than 0")
  else
    let futures :=
      foldl (λ futures i,
               let offset := i * CHUNK_SIZE self in
               let chunk := islice tokens offset (offset + CHUNK_SIZE self) in
               futures ++ [operation chunk])
            [] (seq 0 (Z.to_nat num_threads)) in
    results ← mapM id futures;
    Ok (concat results).

(** The noise markers of [filter_sentences]; [any] over the set is a
    disjunction, whatever the iteration order. *)
Definition noise_markers : list string := ["Figure"; "Fig"; "Tab"; "Table"].

Definition filter_sentences (chunks : list string) : list string :=
  List.filter
    (λ token, (1 <? String.length token)%nat
              && negb (existsb (λ word, Str.contains word token) noise_markers))
    chunks.

Definition filter_words (self : PDFSummarizer) (chunks : list string) : list string :=
  List.filter
    (λ word, bool_decide (word ∉ stop_words self) && (1 <? String.length word)%nat)
    chunks.

(** [x in l] on a list of strings *)
Fixpoint mem (x : string) (l : list string) : bool :=
  match l with
  | [] => false
  | y :: l' => if String.eqb x y then true else mem x l'
  end.

Section Pipeline.
Context `{Number R} (lib : Libraries).

Definition tokenize_sentences (chunks : list string) : result (list string) :=
  tokens ← mapM (sent_tokenize lib) chunks; Ok (concat tokens).

Definition tokenize_words (chunks : list string) : result (list string) :=
  tokens ← mapM (word_tokenize lib) chunks; Ok (concat tokens).

(** *** The frequency scorer (the loop over [self.filtered_sentences]) *)

(** The body of the loop: the score of one sentence. *)
Definition sentence_score (frequency_table : gmap string nat) (fwords : list string)
    (sentence : string) : result R :=
  sentence_words ← word_tokenize lib (Str.lower sentence);
  Ok (sum (map (fd_freq frequency_table)
               (List.filter (λ word, mem word fwords) sentence_words))).

Definition score_sentences (fwords fsentences : list string) : result (list (string * R)) :=
  let frequency_table := FreqDist fwords in
  foldM (λ scores sentence,
           sentence_score ← sentence_score frequency_table fwords sentence;
           Ok (od_set scores sentence sentence_score))
        fsentences [].

(** *** The selector *)

(** [sorted(scores, key=scores.get, reverse=True)[:n]] *)
Definition top_sentences (scores : list (string * R)) (n : nat) : list string :=
  take n (sorted_desc scores).

(** [[sentence for sentence in scores.keys() if sentence in top]] *)
Definition selected_sentences (scores : list (string * R)) (n : nat) : list string :=
  List.filter (λ sentence, mem sentence (top_sentences scores n)) (od_keys scores).

(** The text handed to the condensing stage. *)
Definition selected_text (scores : list (string * R)) (n : nat) : string :=
  Str.cat (selected_sentences scores n).

(** *** The condenser *)

Definition _summarize_chunk (chunk : string) : result string :=
  summarizer lib chunk MAX_LENGTH MIN_LENGTH.

(** *** The lexical corrector *)

(** [all(eng_dict.check(w) for w in split_words)] stops at the first word
    that is not in the dictionary. *)
Fixpoint all_checked (split_words : list string) : result bool :=
  match split_words with
  | [] => Ok true
  | w :: ws => known ← dict_check lib w; if known : bool then all_checked ws else Ok false
  end.

(** One round of the loop: what the token adds to [clean_summary]. *)
Definition correct_word (word : string) : result (list string) :=
  split_words ← wordninja_split lib word;
  if (5 <? String.length word)%nat then
    known ← dict_check lib word;
    if negb (known : bool) then
      all_known ← all_checked split_words;
      if all_known : bool then Ok split_words else Ok [word]
    else Ok [word]
  else Ok [word].

Definition clean_words (words : list string) : result (list string) :=
  foldM (λ clean_summary word,
           pieces ← correct_word word; Ok (clean_summary ++ pieces))
        words [].

(** [re.sub("\s+", " ", " ".join(clean_summary)).strip()] *)
Definition render (clean_summary : list string) : string :=
  Str.strip (Str.collapse (Str.join " " clean_summary)).

(** The corrector as a function of the summary text. *)
Definition corrected (summary : string) : result string :=
  words ← word_tokenize lib summary;
  clean_summary ← clean_words words;
  Ok (render clean_summary).

Definition _correct_summary (self : PDFSummarizer) : result PDFSummarizer :=
  s ← corrected (summary self); Ok (set_summary s self).

(** *** [summarize]

    Two halves: up to the scores (lines 95-128), then the selection, the
    condenser and the corrector (lines 130-142). The [print] calls are left
    out. [executor.map] gives the chunk summaries in the order of the
    chunks. *)
Definition tokenize_and_score (self : PDFSummarizer)
    : result (PDFSummarizer * list (string * R)) :=
  ss ← process_concurrently self (chunks self) 4 tokenize_sentences;
  let self := set_sentences ss self in
  ws ← process_concurrently self (sentences self) 4 tokenize_words;
  let self := set_words ws self in
  fss ← process_concurrently self (sentences self) 4 (λ c, Ok (filter_sentences c));
  let self := set_filtered_sentences fss self in
  fws ← process_concurrently self (words self) 4 (λ c, Ok (filter_words self c));
  let self := set_filtered_words fws self in
  scores ← score_sentences (filtered_words self) (filtered_sentences self);
  Ok (self, scores).

Definition condense (self : PDFSummarizer) (scores : list (string * R))
    : result PDFSummarizer :=
  let self := set_CHUNK_SIZE 1024 self in
  raw_summary_chunks ←
    split_text (selected_text scores NUM_SENTENCES) (Z.of_nat (CHUNK_SIZE self));
  futures ← mapM _summarize_chunk raw_summary_chunks;
  let self := set_summary (Str.cat futures) self in
  _correct_summary self.

Definition summarize (self : PDFSummarizer) : result PDFSummarizer :=
  scored ← tokenize_and_score self;
  condense scored.1 scored.2.

End Pipeline.

(** ** [_sanitize]

    [re.sub(r"\[\d+\]", "", re.sub(r"http\S+", "", text, flags=re.MULTILINE))].
    Both patterns match without backtracking, so [re.sub] is a scan from the
    left that drops each match and goes on after it. *)

(** [http\S+] matches at the head of [s]. *)
Definition starts_url (s : string) : bool :=
  String.prefix "http" s
  && match Str.drop 4 s with
     | String c _ => negb (Str.is_space c)
     | EmptyString => false
     end.

(** [in_url]: the scan is inside a match, which ends before the next white
    space. *)
Fixpoint strip_urls_from (in_url : bool) (s : string) : string :=
  match s with
  | EmptyString => EmptyString
  | String c s' =>
      if in_url
      then (if Str.is_space c then String c (strip_urls_from false s')
            else strip_urls_from true s')
      else if starts_url s then strip_urls_from true s'
      else String c (strip_urls_from false s')
  end.

Definition strip_urls (s : string) : string := strip_urls_from false s.

(** [\d] below 256 *)
Definition is_digit (c : ascii) : bool :=
  let n := nat_of_ascii c in ((48 <=? n) && (n <=? 57))%nat.

(** After the bracket and [seen] digits: the number of characters up to and
    with the closing bracket, when [\d+\]] matches. *)
Fixpoint digits_then_close (seen : nat) (s : string) : option nat :=
  match s with
  | EmptyString => None
  | String c s' =>
      if is_digit c then digits_then_close (S seen) s'
      else if (Ascii.eqb c "]" && (0 <? seen)%nat)%bool then Some (S seen)
      else None
  end.

(** [\[\d+\]] matches at the head of [s]: the number of characters of the
    match after the opening bracket. *)
Definition citation_at (s : string) : option nat :=
  match s with
  | String c s' => if Ascii.eqb c "[" then digits_then_close 0 s' else None
  | EmptyString => None
  end.

(** [skip]: the characters of the current match still to drop. *)
Fixpoint strip_citations_from (skip : nat) (s : string) : string :=
  match s with
  | EmptyString => EmptyString
  | String c s' =>
      match skip with
      | S k => strip_citations_from k s'
      | O =>
          match citation_at s with
          | Some n => strip_citations_from n s'
          | None => String c (strip_citations_from 0 s')
          end
      end
  end.

Definition strip_citations (s : string) : string := strip_citations_from 0 s.

Definition _sanitize (text : string) : string := strip_citations (strip_urls text).

(** ** [converter.PDFToTextConverter] *)

Module Converter.

(** [hay.rfind(needle)]: the highest index at which [needle] starts, or -1.
    [last] is the highest one found before position [pos]. *)
Fixpoint rfind_from (pos : nat) (last : Z) (needle hay : string) : Z :=
  let last' := if String.prefix needle hay then Z.of_nat pos else last in
  match hay with
  | EmptyString => last'
  | String _ hay' => rfind_from (S pos) last' needle hay'
  end.

Definition rfind (hay needle : string) : Z := rfind_from 0 (-1) needle hay.

(** [text.lower().rfind("references") or text.lower().rfind("bibliography")]:
    [or] gives its second operand when the first is 0. *)
Definition noise_index (text : string) : Z :=
  let index := rfind (Str.lower text) "references" in
  if (index =? 0)%Z then rfind (Str.lower text) "bibliography" else index.

(** The first statement of [_remove_noise]: [text[:index]] unless the index
    is -1. *)
Definition cut_references (text : string) : string :=
  let index := noise_index text in
  if negb (index =? -1)%Z then Str.slice text 0 index else text.

(** [text.replace("-", "")] *)
Fixpoint drop_hyphens (s : string) : string :=
  match s with
  | EmptyString => EmptyString
  | String c s' => if Ascii.eqb c "-" then drop_hyphens s' else String c (drop_hyphens s')
  end.

(** [re.sub(self.email_pattern, "", .)] and [re.sub(self.url_pattern, "", .)],
    as the regular expression engine computes them. *)
Record Patterns := {
  sub_email : string → string;
  sub_url : string → string;
}.

Definition _remove_noise (re : Patterns) (text : string) : string :=
  let text := cut_references text in
  let text := sub_url re (sub_email re text) in
  drop_hyphens text.

(** The files: a path has the bytes of its file. *)
Definition _validate_file (fs : gmap string string) (filename : string) : result string :=
  match fs !! filename with
  | None => Err (Raised ("FileNotFoundError: The file '" +:+ filename +:+ "' does not exist."))
  | Some content =>
      if negb (String.eqb (Str.take 4 content) "%PDF")
      then Err (ValueError ("The file '" +:+ filename +:+ "' is not a PDF file."))
      else Ok filename
  end.

(** [pypdf]: the text of each page of a file, from its bytes. *)
Definition Reader := string → result (list string).

Definition _read_file (fs : gmap string string) (pdf : Reader) (re : Patterns)
    (filename : string) : result string :=
  _ ← _validate_file fs filename;
  pages ← match fs !! filename with
          | Some content => pdf content
          | None => Err (Raised "FileNotFoundError")
          end;
  Ok (_remove_noise re (Str.join " " pages)).

Record PDFToTextConverter := {
  filename : string;
  text : string;
}.

Definition init (fs : gmap string string) (pdf : Reader) (re : Patterns)
    (name : string) : result PDFToTextConverter :=
  validated ← _validate_file fs name;
  content ← _read_file fs pdf re name;
  Ok {| filename := validated; text := content |}.

End Converter.

(** [nltk_summarizer.PDFSummarizer(filename)]: the loader, [_sanitize], then
    the chunks. *)
Definition new (fs : gmap string string) (pdf : Converter.Reader) (re : Converter.Patterns)
    (stop : gset string) (name : string) : result PDFSummarizer :=
  loaded ← Converter.init fs pdf re name;
  init stop (_sanitize (Converter.text loaded)).

(** ** [transformers_summarizer.PDFSummarizer] *)

Module Pegasus.

(** [chunks] and [summary] are not set by [__init__]: they exist once
    [summarize] has run. *)
Record PDFSummarizer := {
  text : string;
  chunks : option (list string);
  summary : option string;
}.

Definition CHUNK_SIZE : Z := 4096.

Definition _split_text (self : PDFSummarizer) : result PDFSummarizer :=
  chunks ← split_text (text self) CHUNK_SIZE;
  Ok {| text := text self; chunks := Some chunks; summary := summary self |}.

(** [generate chunk]: encode, [model.generate], decode. *)
Definition summarize (generate : string → result string) (self : PDFSummarizer)
    : result PDFSummarizer :=
  self ← _split_text self;
  summary ← foldM (λ summary chunk, piece ← generate chunk; Ok (summary +:+ piece))
                  (default [] (chunks self)) "";
  Ok {| text := text self; chunks := chunks self; summary := Some summary |}.

Definition suma (self : PDFSummarizer) : result string :=
  match summary self with
  | Some s => Ok s
  | None => Err (Raised "AttributeError: 'PDFSummarizer' object has no attribute 'summary'")
  end.

End Pegasus.

(** ** [sumy_summarizer.PDFSummarizer] *)

Module Sumy.

Record PDFSummarizer := {
  text : string;
  summary : string;
}.

Definition NUM_SENTENCES : nat := 20.

(** [lsa text n]: the texts of the sentences that the LSA summarizer picks
    from the parsed document. *)
Definition summarize (lsa : string → nat → result (list string)) (self : PDFSummarizer)
    : result PDFSummarizer :=
  picked ← lsa (text self) NUM_SENTENCES;
  Ok {| text := text self;
        summary := foldl (λ summary sentence, summary +:+ sentence) (summary self) picked |}.

Definition suma (self : PDFSummarizer) : string := summary self.

End Sumy.

(** ** Stand-ins for the libraries, for the worked runs

    On plain prose (words of letters separated by single blanks, sentences
    that end in a full stop followed by a blank) they give what NLTK gives. *)

(** The characters read so far, last one first, as a string. *)
Fixpoint rev_onto (acc : string) (s : string) : string :=
  match s with
  | EmptyString => acc
  | String c s' => rev_onto (String c acc) s'
  end.

(** [str.split()]: the maximal runs of characters that are not white space.
    [cur] holds the current run, last character first. *)
Fixpoint split_ws_from (cur : string) (s : string) : list string :=
  match s with
  | EmptyString => if String.eqb cur "" then [] else [rev_onto "" cur]
  | String c s' =>
      if Str.is_space c
      then (if String.eqb cur "" then split_ws_from "" s'
            else rev_onto "" cur :: split_ws_from "" s')
      else split_ws_from (String c cur) s'
  end.

Definition split_ws (s : string) : list string := split_ws_from "" s.

Definition at_break (s : string) : bool :=
  match s with
  | EmptyString => true
  | String c _ => Str.is_space c
  end.

(** A sentence ends at a full stop that is followed by white space or by the
    end of the text; the white space between sentences is dropped. [cur]
    holds the current sentence, last character first. *)
Fixpoint sentences_from (cur : string) (s : string) : list string :=
  match s with
  | EmptyString => if String.eqb cur "" then [] else [rev_onto "" cur]
  | String c s' =>
      if Str.is_space c && String.eqb cur "" then sentences_from "" s'
      else if Ascii.eqb c "." && at_break s'
           then rev_onto "" (String c cur) :: sentences_from "" s'
           else sentences_from (String c cur) s'
  end.

Definition plain_sentences (s : string) : list string := sentences_from "" s.

(** The full stop that ends a sentence is a token of its own. *)
Fixpoint split_last_stop (tokens : list string) : list string :=
  match tokens with
  | [] => []
  | [t] =>
      let n := String.length t in
      if ((1 <? n)%nat && String.eqb (Str.drop (n - 1) t) ".")%bool
      then [Str.take (n - 1) t; "."] else [t]
  | t :: tokens' => t :: split_last_stop tokens'
  end.

Definition plain_words (s : string) : list string :=
  concat (map (λ sentence, split_last_stop (split_ws sentence)) (plain_sentences s)).

(** The model echoes its input, every token is a dictionary word and is its
    own segmentation. *)
Definition plain_lib : Libraries := {|
  sent_tokenize := λ chunk, Ok (plain_sentences chunk);
  word_tokenize := λ s, Ok (plain_words s);
  summarizer := λ chunk _ _, Ok chunk;
  dict_check := λ _, Ok true;
  wordninja_split := λ w, Ok [w];
|}.

(** An object whose [CHUNK_SIZE] was assigned 2, to watch the engine on
    short lists. *)
Definition small_self : PDFSummarizer :=
  {| stop_words := {["the"]}; text := ""; chunks := []; CHUNK_SIZE := 2;
     sentences := []; words := []; filtered_sentences := [];
     filtered_words := []; summary := "" |}.

(** [n] copies of [s] *)
Fixpoint repeat_str (n : nat) (s : string) : string :=
  match n with
  | O => ""
  | S n' => s +:+ repeat_str n' s
  end.

(** A stand-in for the LSA summarizer: the text as one sentence, then a
    mark. *)
Definition first_and_mark (text : string) (n : nat) : result (list string) :=
  Ok (take n [text; "!"]).

(** The dictionary of the worked runs. *)
Definition small_dictionary : list string :=
  ["quick"; "brown"; "the"; "dog"; "that"; "that's"; "sheriff"; "sheriff's"; "badge"].

(** [wordninja.split] on the tokens of the worked runs: the fused word of the
    spec, and the fused words of wordninja's own documentation, which keeps
    the clitic with its word. Any other token is its own segmentation. *)
Definition table_split (w : string) : list string :=
  if String.eqb w "quickbrown" then ["quick"; "brown"]
  else if String.eqb w "that'sthesheriff'sbadge" then ["that's"; "the"; "sheriff's"; "badge"]
  else [w].

(** The Treebank rule of [word_tokenize] for the clitic ['s] at the end of a
    word: it is a token of its own. *)
Definition split_clitic (t : string) : list string :=
  let n := String.length t in
  if ((2 <? n)%nat && String.eqb (Str.drop (n - 2) t) "'s")%bool
  then [Str.take (n - 2) t; "'s"] else [t].

Definition treebank_words (s : string) : list string :=
  concat (map split_clitic (plain_words s)).

Definition dict_lib : Libraries := {|
  sent_tokenize := λ chunk, Ok (plain_sentences chunk);
  word_tokenize := λ s, Ok (treebank_words s);
  summarizer := λ chunk _ _, Ok chunk;
  dict_check := λ w, Ok (mem w small_dictionary);
  wordninja_split := λ w, Ok (table_split w);
|}.

(** The same, with a dictionary that fails on one token. *)
Definition failing_lib : Libraries := {|
  sent_tokenize := λ chunk, Ok (plain_sentences chunk);
  word_tokenize := λ s, Ok (treebank_words s);
  summarizer := λ chunk _ _, Ok chunk;
  dict_check := λ w,
    if String.eqb w "quickbrown" then Err (Raised "enchant.errors.Error")
    else Ok (mem w small_dictionary);
  wordninja_split := λ w, Ok (table_split w);
|}.

(** ** The vocabulary of the claims *)

(** What the claim asks of a sentence that is kept. *)
Definition kept (token : string) : Prop :=
  1 < String.length token
  ∧ ¬ Str.occurs "Figure" token ∧ ¬ Str.occurs "Fig" token
  ∧ ¬ Str.occurs "Tab" token ∧ ¬ Str.occurs "Table" token.

(** [count(w in l)] *)
Definition count (w : string) (l : list string) : nat :=
  count_occ String.string_dec l w.

(** What the claim takes the text to be: the top sentences joined in the
    order of decreasing score. *)
Definition score_order_text `{Number R} (scores : list (string * R)) (n : nat) : string :=
  Str.cat (top_sentences scores n).

(** The condition under which the corrector is to split a token, with the
    dictionary given as two total functions. *)
Definition should_split (is_word : string → bool) (segment : string → list string)
    (token : string) : Prop :=
  5 < String.length token
  ∧ is_word token = false
  ∧ ∀ s, s ∈ segment token → is_word s = true.

(** When the dictionary fails while the corrector looks at a token: the
    segmentation fails, or the token is long and its check fails, or the
    token is long, is not a word, and the check of a segment fails, the
    segments before it being words. *)
Definition oracle_fails_on (lib : Libraries) (token : string) : Prop :=
  is_Err (wordninja_split lib token)
  ∨ (5 < String.length token ∧ is_Err (dict_check lib token))
  ∨ (5 < String.length token ∧ dict_check lib token = Ok false
     ∧ ∃ known s rest,
         wordninja_split lib token = Ok (known ++ s :: rest)
         ∧ (∀ w, w ∈ known → dict_check lib w = Ok true)
         ∧ is_Err (dict_check lib s)).

(** An operation of the engine that works element by element: the result
    for a concatenation is the concatenation of the results, and a failure
    in the first part comes first. *)
Definition distributes {A B} (operation : list A → result (list B)) : Prop :=
  operation [] = Ok []
  ∧ ∀ a b, operation (a ++ b) = (ra ← operation a; rb ← operation b; Ok (ra ++ rb)).

(** No [http] followed by a character that is not white space starts
    anywhere in [t]: the pattern [http\S+] has no match in it. *)
Definition url_free (t : string) : Prop :=
  ∀ before rest, t = before +:+ rest → starts_url rest = false.

(** Every white space of [s] is a single blank that stands alone;
    [after_space]: the character before [s] is white space. *)
Fixpoint spaced_from (after_space : bool) (s : string) : bool :=
  match s with
  | EmptyString => true
  | String c s' =>
      if Str.is_space c
      then Ascii.eqb c " " && negb after_space && spaced_from true s'
      else spaced_from false s'
  end.

(** The same, and [s] does not end with white space. *)
Fixpoint tidy_from (after_space : bool) (s : string) : bool :=
  match s with
  | EmptyString => negb after_space
  | String c s' =>
      if Str.is_space c
      then Ascii.eqb c " " && negb after_space && tidy_from true s'
      else tidy_from false s'
  end.

(** A tidy text: no white space at either end, and between the words single
    blanks only. *)
Definition tidy (s : string) : bool :=
  match s with
  | EmptyString => true
  | _ => tidy_from true s
  end.

(** The elements of [l] in the order in which they first occur, each once;
    [seen]: the elements met before [l]. *)
Fixpoint first_occurrences_from (seen l : list string) : list string :=
  match l with
  | [] => []
  | x :: l' =>
      if mem x seen then first_occurrences_from seen l'
      else x :: first_occurrences_from (seen ++ [x]) l'
  end.

Definition first_occurrences (l : list string) : list string :=
  first_occurrences_from [] l.

(** A token as a tokenizer gives it: not empty, and without white space. *)
Fixpoint no_space (s : string) : bool :=
  match s with
  | EmptyString => true
  | String c s' => negb (Str.is_space c) && no_space s'
  end.

Definition plain (t : string) : Prop := t ≠ "" ∧ no_space t = true.

(** The dictionary answers where the corrector asks it about [token]: the
    segmentation always, the check of the token when it is longer than 5
    characters, the check of its segments when it is not a word. *)
Definition answers (lib : Libraries) (is_word : string → bool)
    (segment : string → list string) (token : string) : Prop :=
  wordninja_split lib token = Ok (segment token)
  ∧ (5 < String.length token →
     dict_check lib token = Ok (is_word token)
     ∧ (is_word token = false →
        ∀ s, s ∈ segment token → dict_check lib s = Ok (is_word s))).

(** * Properties *)

(** ** Strings *)

Module StrFacts.
Import Str.

Lemma substring_take_drop n m s : String.substring n m s = take m (drop n s).
Proof.
  revert m s. induction n as [|n IH]; intros m s.
  - revert s. induction m as [|m IHm]; intros [|c s]; simpl; try done.
    by rewrite IHm.
  - destruct s as [|c s]; simpl; [by destruct m|]. apply IH.
Qed.

Lemma app_cons c s t : String c s +:+ t = String c (s +:+ t).
Proof. reflexivity. Qed.

Lemma take_drop n s : take n s +:+ drop n s = s.
Proof.
  revert s. induction n as [|n IH]; intros [|c s]; simpl; try done.
  rewrite app_cons. f_equal. apply IH.
Qed.

Lemma drop_drop n m s : drop m (drop n s) = drop (n + m) s.
Proof.
  revert s. induction n as [|n IH]; intros s; simpl; [done|].
  destruct s as [|c s]; [by destruct m|]. apply IH.
Qed.

Lemma length_take n s : String.length (take n s) = n `min` String.length s.
Proof.
  revert s. induction n as [|n IH]; intros [|c s]; simpl; try done.
  f_equal. apply IH.
Qed.

Lemma length_drop n s : String.length (drop n s) = String.length s - n.
Proof.
  revert s. induction n as [|n IH]; intros [|c s]; simpl; auto.
Qed.

Lemma drop_ge n s : String.length s ≤ n → drop n s = "".
Proof.
  revert s. induction n as [|n IH]; intros [|c s]; simpl; intros Hn;
    try done; try lia.
  apply IH. lia.
Qed.

Lemma take_ge n s : String.length s ≤ n → take n s = s.
Proof.
  revert s. induction n as [|n IH]; intros [|c s]; simpl; intros Hn;
    try done; try lia.
  f_equal. apply IH. lia.
Qed.

Lemma take_min n s : take (n `min` String.length s) s = take n s.
Proof.
  destruct (Nat.le_gt_cases n (String.length s)) as [Hle|Hgt].
  - by rewrite Nat.min_l.
  - rewrite Nat.min_r by lia. rewrite !take_ge; [done|lia|lia].
Qed.

(** A slice that starts inside the text and has a positive width. *)
Lemma slice_inside s (i w : Z) :
  (0 ≤ i)%Z → (0 < w)%Z →
  slice s i (i + w) = take (Z.to_nat w) (drop (Z.to_nat i) s).
Proof.
  intros Hi Hw. unfold slice, bound, len.
  rewrite substring_take_drop.
  destruct (Z.ltb_spec i 0); [lia|].
  destruct (Z.ltb_spec (i + w) 0); [lia|].
  destruct (Z.le_gt_cases i (Z.of_nat (String.length s))) as [Hle|Hgt].
  - rewrite (Z.min_l i) by done.
    rewrite <- (take_min (Z.to_nat w)), <- (take_min (_ - _)).
    f_equal. rewrite length_drop. lia.
  - rewrite !drop_ge by lia. by destruct (_ - _), (Z.to_nat w).
Qed.

End StrFacts.

(** ** The chunker *)

Lemma ceil_div_spec (a b : Z) :
  (0 < b)%Z → ((ceil_div a b - 1) * b < a ≤ ceil_div a b * b)%Z.
Proof.
  intros Hb. unfold ceil_div.
  pose proof (Z.div_mod (a + b - 1) b ltac:(lia)) as Hdm.
  pose proof (Z.mod_pos_bound (a + b - 1) b Hb) as Hm.
  nia.
Qed.

Lemma ceil_div_step (d b : Z) :
  (0 < b)%Z → (0 < d)%Z →
  Z.to_nat (ceil_div d b) = S (Z.to_nat (ceil_div (d - b) b)).
Proof.
  intros Hb Hd. unfold ceil_div.
  replace (d + b - 1)%Z with ((d - 1) + 1 * b)%Z by lia.
  rewrite Z.div_add by lia.
  replace (d - b + b - 1)%Z with (d - 1)%Z by lia.
  pose proof (Z.div_pos (d - 1) b ltac:(lia) Hb). lia.
Qed.

Lemma ceil_div_nonpos (d b : Z) :
  (0 < b)%Z → (d ≤ 0)%Z → Z.to_nat (ceil_div d b) = 0.
Proof.
  intros Hb Hd. unfold ceil_div.
  assert ((d + b - 1) / b ≤ 0)%Z; [|lia].
  apply Z.lt_succ_r. apply Z.div_lt_upper_bound; lia.
Qed.

Lemma range_up_length fuel i stop step :
  (0 < step)%Z → (stop - i ≤ Z.of_nat fuel)%Z →
  length (range_up fuel i stop step) = Z.to_nat (ceil_div (stop - i) step).
Proof.
  intros Hstep. revert i. induction fuel as [|fuel IH]; intros i Hfuel; simpl.
  - by rewrite ceil_div_nonpos by lia.
  - destruct (Z.ltb_spec i stop).
    + simpl. rewrite IH by lia.
      rewrite (ceil_div_step (stop - i)) by lia. do 3 f_equal. lia.
    + by rewrite ceil_div_nonpos by lia.
Qed.

Lemma range_up_chunks text fuel i w :
  (0 < w)%Z → (0 ≤ i)%Z → (Str.len text - i ≤ Z.of_nat fuel)%Z →
  Str.cat (map (λ i, Str.slice text i (i + w)) (range_up fuel i (Str.len text) w))
  = Str.drop (Z.to_nat i) text.
Proof.
  intros Hw. revert i. induction fuel as [|fuel IH]; intros i Hi Hfuel; simpl.
  - rewrite StrFacts.drop_ge; [done|]. unfold Str.len in *. lia.
  - destruct (Z.ltb_spec i (Str.len text)).
    + simpl. rewrite IH by lia. rewrite StrFacts.slice_inside by done.
      replace (Z.to_nat (i + w)) with (Z.to_nat i + Z.to_nat w) by lia.
      rewrite <- StrFacts.drop_drop. apply StrFacts.take_drop.
    + rewrite StrFacts.drop_ge; [done|]. unfold Str.len in *. lia.
Qed.

Lemma range_up_bounds fuel i stop step :
  (0 < step)%Z → (0 ≤ i)%Z → Forall (λ k, 0 ≤ k)%Z (range_up fuel i stop step).
Proof.
  intros Hstep. revert i. induction fuel as [|fuel IH]; intros i Hi; simpl; [done|].
  destruct (Z.ltb_spec i stop); [|done]. constructor; [done|]. apply IH. lia.
Qed.

(** C4. For a positive chunk size [split_text] returns (it does not raise)
    exactly [ceil(len(text) / chunk_size)] chunks, none longer than
    [chunk_size], and their concatenation in order is [text]. *)
Theorem split_text_chunks (text : string) (chunk_size : Z) :
  (0 < chunk_size)%Z →
  ∃ chunks,
    split_text text chunk_size = Ok chunks
    ∧ Z.of_nat (length chunks) = ceil_div (Str.len text) chunk_size
    ∧ Forall (λ chunk, Str.len chunk ≤ chunk_size)%Z chunks
    ∧ Str.cat chunks = text.
Proof.
  intros Hcs. unfold split_text, range.
  destruct (Z.eqb_spec chunk_size 0); [lia|].
  destruct (Z.ltb_spec 0 chunk_size); [|lia].
  eexists. split; [reflexivity|]. rewrite Z.sub_0_r. repeat split.
  - rewrite length_map, range_up_length by lia. rewrite Z.sub_0_r.
    pose proof (ceil_div_spec (Str.len text) chunk_size Hcs).
    assert (0 ≤ ceil_div (Str.len text) chunk_size)%Z; [|lia].
    unfold Str.len in *. nia.
  - apply Forall_map.
    eapply Forall_impl; [apply (range_up_bounds _ 0); lia|].
    intros i Hi. simpl. rewrite StrFacts.slice_inside by done.
    unfold Str.len. rewrite StrFacts.length_take. lia.
  - by rewrite range_up_chunks by lia.
Qed.

Lemma split_text_chunks_witness :
  (0 < 3)%Z ∧
  ∃ chunks,
    split_text "abcdefgh" 3 = Ok chunks
    ∧ Z.of_nat (length chunks) = ceil_div (Str.len "abcdefgh") 3
    ∧ Forall (λ chunk, Str.len chunk ≤ 3)%Z chunks
    ∧ Str.cat chunks = "abcdefgh".
Proof. split; [lia|]. apply (split_text_chunks "abcdefgh" 3). lia. Defined.

Example split_text_spec_example :
  split_text "abcdefgh" 3 = Ok ["abc"; "def"; "gh"].
Proof. reflexivity. Qed.

(** C6, as the claim states it, fails: a negative chunk size does not make
    [split_text] fail. [range] with a negative step is empty, so no chunk is
    cut and the empty list comes back. *)
Lemma split_text_negative_returns :
  (-1 ≤ 0)%Z ∧ split_text "abc" (-1) = Ok [] ∧ ¬ is_Err (split_text "abc" (-1)).
Proof.
  split; [lia|]. split; [reflexivity|]. intros [e He]. discriminate He.
Qed.

(** C6, amended. The class has no configuration check of its own. A chunk
    size of zero fails, with the [ValueError] that [range] raises before any
    slice is cut; a negative chunk size does not fail and gives no chunks. *)
Theorem split_text_nonpositive (text : string) (chunk_size : Z) :
  (chunk_size ≤ 0)%Z →
  split_text text chunk_size =
    if (chunk_size =? 0)%Z
    then Err (ValueError "range() arg 3 must not be zero")
    else Ok [].
Proof.
  intros Hcs. unfold split_text, range.
  destruct (Z.eqb_spec chunk_size 0) as [->|Hne]; [reflexivity|].
  destruct (Z.ltb_spec 0 chunk_size); [lia|].
  replace (Z.to_nat (0 - Str.len text)) with 0; [reflexivity|].
  unfold Str.len. lia.
Qed.

Lemma split_text_nonpositive_witness :
  (0 ≤ 0)%Z ∧ (-5 ≤ 0)%Z
  ∧ split_text "abc" 0 = Err (ValueError "range() arg 3 must not be zero")
  ∧ split_text "abc" (-5) = Ok [].
Proof.
  split; [lia|]. split; [lia|]. split.
  - apply (split_text_nonpositive "abc" 0). lia.
  - apply (split_text_nonpositive "abc" (-5)). lia.
Defined.

(** ** The bounded fan-out engine *)

Lemma slice_from_islice {A} (l : list A) (p lo hi : nat) :
  slice_from p l lo hi = take (hi - lo `max` p) (drop (lo - p) l).
Proof.
  revert p. induction l as [|x l IH]; intros p; simpl.
  - by rewrite drop_nil, take_nil.
  - destruct (Nat.leb_spec lo p) as [Hlo|Hlo]; simpl.
    + replace (lo - p) with 0 by lia. simpl.
      destruct (Nat.ltb_spec p hi) as [Hhi|Hhi]; rewrite IH.
      * replace (hi - lo `max` p) with (S (hi - lo `max` S p)) by lia.
        replace (lo - S p) with 0 by lia. done.
      * replace (hi - lo `max` p) with 0 by lia.
        replace (hi - lo `max` S p) with 0 by lia. done.
    + rewrite IH. replace (lo - p) with (S (lo - S p)) by lia. simpl.
      do 2 f_equal. lia.
Qed.

(** The slice of the engine is the slice of the claim. *)
Lemma islice_list_slice {A} (l : list A) (lo hi : nat) :
  islice l lo hi = list_slice l lo hi.
Proof.
  unfold islice, list_slice. rewrite slice_from_islice.
  rewrite Nat.max_0_r, Nat.sub_0_r. done.
Qed.

(** A slice that ends at or before [n] only reads the first [n] elements. *)
Lemma islice_take {A} (l : list A) (lo hi n : nat) :
  hi ≤ n → islice (take n l) lo hi = islice l lo hi.
Proof.
  intros Hn. unfold islice.
  destruct (Nat.le_gt_cases lo hi) as [Hle|Hgt].
  - rewrite !take_drop_commute, take_take. do 2 f_equal. lia.
  - by replace (hi - lo) with 0 by lia.
Qed.

Lemma futures_loop {A} (g : nat → A) (l : list nat) (acc : list A) :
  foldl (λ futures i, futures ++ [g i]) acc l = acc ++ map g l.
Proof.
  revert acc. induction l as [|i l IH]; intros acc; simpl.
  - by rewrite app_nil_r.
  - rewrite IH, <- app_assoc. done.
Qed.

Lemma mapM_id_Ok {A B} (g : A → B) (l : list A) :
  mapM id (map (λ x, Ok (g x)) l) = Ok (map g l).
Proof.
  induction l as [|x l IH]; simpl; [done|]. by rewrite IH.
Qed.

Lemma process_concurrently_pure {A B} (self : PDFSummarizer) (tokens : list A)
    (num_threads : Z) (f : list A → list B) :
  (0 < num_threads)%Z →
  process_concurrently self tokens num_threads (λ chunk, Ok (f chunk)) =
  Ok (concat (map (λ i, f (islice tokens (i * CHUNK_SIZE self)
                                         (i * CHUNK_SIZE self + CHUNK_SIZE self)))
                  (seq 0 (Z.to_nat num_threads)))).
Proof.
  intros HW. unfold process_concurrently.
  destruct (Z.leb_spec num_threads 0); [lia|].
  rewrite (futures_loop (λ i, Ok (f (islice tokens (i * CHUNK_SIZE self)
                                                    (i * CHUNK_SIZE self + CHUNK_SIZE self))))).
  simpl. by rewrite (mapM_id_Ok (λ i, f (islice tokens _ _))).
Qed.

(** C2. With [W > 0] workers and a pure operation [f] the engine returns the
    concatenation, for [i = 0 .. W-1] in this order, of [f] applied to
    [tokens[i*CHUNK_SIZE : (i+1)*CHUNK_SIZE]]; the result is the same for any
    input that agrees with [tokens] on the first [W * CHUNK_SIZE] positions,
    so what lies beyond them is never processed. *)
Theorem process_concurrently_slices {A B} (self : PDFSummarizer) (tokens : list A)
    (W : Z) (f : list A → list B) :
  (0 < W)%Z →
  process_concurrently self tokens W (λ chunk, Ok (f chunk)) =
    Ok (concat (map (λ i, f (list_slice tokens (i * CHUNK_SIZE self)
                                               ((i + 1) * CHUNK_SIZE self)))
                    (seq 0 (Z.to_nat W))))
  ∧ ∀ tokens' : list A,
      take (Z.to_nat W * CHUNK_SIZE self) tokens'
      = take (Z.to_nat W * CHUNK_SIZE self) tokens →
      process_concurrently self tokens' W (λ chunk, Ok (f chunk))
      = process_concurrently self tokens W (λ chunk, Ok (f chunk)).
Proof.
  intros HW. split.
  - rewrite process_concurrently_pure by done. do 2 f_equal.
    apply map_ext. intros i. rewrite islice_list_slice. do 2 f_equal. lia.
  - intros tokens' Hsame. rewrite !process_concurrently_pure by done.
    do 2 f_equal. apply map_ext_in. intros i Hi%in_seq. f_equal.
    assert (i * CHUNK_SIZE self + CHUNK_SIZE self ≤ Z.to_nat W * CHUNK_SIZE self) as Hin.
    { assert (S i * CHUNK_SIZE self ≤ Z.to_nat W * CHUNK_SIZE self) as Hmul
        by (apply Nat.mul_le_mono_r; lia).
      simpl in Hmul. lia. }
    rewrite <- (islice_take tokens' _ _ _ Hin), <- (islice_take tokens _ _ _ Hin).
    by rewrite Hsame.
Qed.

Lemma process_concurrently_slices_witness :
  (0 < 2)%Z
  ∧ process_concurrently small_self [1; 2; 3; 4; 5] 2 (λ chunk, Ok (map S chunk))
    = Ok [2; 3; 4; 5].
Proof.
  split; [lia|].
  destruct (process_concurrently_slices small_self [1; 2; 3; 4; 5] 2 (map S)) as [Hrun _];
    [lia|exact Hrun].
Defined.

(** ** The sentence filter *)

Lemma prefix_spec (needle hay : string) :
  String.prefix needle hay = true ↔ ∃ post, hay = needle +:+ post.
Proof.
  revert hay. induction needle as [|c needle IH]; intros hay.
  - split; [|by destruct hay]. intros _. by exists hay.
  - destruct hay as [|c' hay]; simpl.
    + split; [done|]. intros [post Hpost]. discriminate Hpost.
    + destruct (Ascii.ascii_dec c c') as [->|Hne].
      * rewrite IH. split; intros [post Hpost]; exists post.
        -- by rewrite Hpost.
        -- rewrite StrFacts.app_cons in Hpost. by injection Hpost.
      * split; [done|]. intros [post Hpost].
        rewrite StrFacts.app_cons in Hpost. by injection Hpost as ->.
Qed.

(** [needle in hay] holds exactly when [needle] occurs in [hay]. *)
Lemma contains_spec (needle hay : string) :
  Str.contains needle hay = true ↔ Str.occurs needle hay.
Proof.
  unfold Str.occurs. induction hay as [|c hay IH].
  - change (Str.contains needle "") with (if String.prefix needle "" then true else false).
    destruct (String.prefix needle "") eqn:Hp.
    + split; [|done]. intros _. apply prefix_spec in Hp as [post Hpost].
      by exists "", post.
    + split; [done|]. intros ([|c pre] & post & Hpre).
      * assert (String.prefix needle "" = true) as Hp'
          by (apply prefix_spec; by exists post).
        congruence.
      * discriminate Hpre.
  - change (Str.contains needle (String c hay))
      with (if String.prefix needle (String c hay) then true else Str.contains needle hay).
    destruct (String.prefix needle (String c hay)) eqn:Hp.
    + split; [|done]. intros _. apply prefix_spec in Hp as [post Hpost].
      by exists "", post.
    + rewrite IH. split.
      * intros (pre & post & ->). by exists (String c pre), post.
      * intros ([|c' pre] & post & Hpre).
        -- assert (String.prefix needle (String c hay) = true) as Hp'
             by (apply prefix_spec; by exists post).
           congruence.
        -- rewrite StrFacts.app_cons in Hpre. injection Hpre as -> ->.
           by exists pre, post.
Qed.

(** C10. [filter_sentences] returns exactly the elements that are longer than
    one character and contain none of "Figure", "Fig", "Tab", "Table", in
    their original order: it is the input filtered by a test that decides
    this property, so it is a subsequence of the input that holds every
    occurrence of a kept element and nothing else. *)
Theorem filter_sentences_spec (chunks : list string) :
  ∃ keep : string → bool,
    (∀ token, keep token = true ↔ kept token)
    ∧ filter_sentences chunks = List.filter keep chunks
    ∧ sublist (filter_sentences chunks) chunks
    ∧ (∀ token, token ∈ filter_sentences chunks ↔ token ∈ chunks ∧ kept token).
Proof.
  set (keep := λ token : string,
         (1 <? String.length token)%nat
         && negb (existsb (λ word, Str.contains word token) noise_markers)).
  assert (∀ token, keep token = true ↔ kept token) as Hkeep.
  { intros token. unfold keep, kept, noise_markers. simpl.
    rewrite andb_true_iff, negb_true_iff, Nat.ltb_lt.
    rewrite !orb_false_iff, <- !not_true_iff_false, !contains_spec.
    intuition congruence. }
  exists keep. split; [done|]. split; [done|]. split.
  - unfold filter_sentences. fold keep.
    induction chunks as [|x l IH]; simpl; [constructor|].
    destruct (keep x); by constructor.
  - intros token. unfold filter_sentences. fold keep.
    rewrite !list_elem_of_In, filter_In, Hkeep. done.
Qed.

Example filter_sentences_example :
  filter_sentences ["It works."; "See Figure 2."; "x"; "Table 1 lists it."; "Stable."; "It works."]
  = ["It works."; "Stable."; "It works."].
Proof. reflexivity. Qed.

(** ** The frequency scorer *)

Lemma fd_N_add_commute (j1 j2 : string) (z1 z2 y : nat) :
  z1 + (z2 + y) = z2 + (z1 + y).
Proof. lia. Qed.

Lemma fd_N_insert (fd : gmap string nat) (w : string) :
  fd_N (<[w := S (default 0 (fd !! w))]> fd) = S (fd_N fd).
Proof.
  unfold fd_N. destruct (fd !! w) as [c|] eqn:Hw; simpl.
  - rewrite <- insert_delete_eq.
    rewrite map_fold_insert_L; [|intros; apply fd_N_add_commute; done|apply lookup_delete_eq].
    rewrite (map_fold_delete_L _ _ w c fd); [lia|intros; apply fd_N_add_commute; done|done].
  - rewrite map_fold_insert_L; [done|intros; apply fd_N_add_commute; done|done].
Qed.

Lemma fd_count_insert (fd : gmap string nat) (w x : string) :
  fd_count (<[w := S (default 0 (fd !! w))]> fd) x
  = fd_count fd x + (if String.string_dec w x then 1 else 0).
Proof.
  unfold fd_count. destruct (String.string_dec w x) as [->|Hne].
  - rewrite lookup_insert_eq. simpl. lia.
  - rewrite lookup_insert_ne by done. lia.
Qed.

Lemma FreqDist_loop (samples : list string) (fd : gmap string nat) :
  let fd' := foldl (λ fd w, <[w := S (default 0 (fd !! w))]> fd) fd samples in
  fd_N fd' = fd_N fd + length samples
  ∧ ∀ x, fd_count fd' x = fd_count fd x + count x samples.
Proof.
  revert fd. induction samples as [|w samples IH]; intros fd; simpl.
  - split; [lia|]. intros x. unfold count. simpl. lia.
  - destruct (IH (<[w := S (default 0 (fd !! w))]> fd)) as [HN Hcount].
    split.
    + rewrite HN, fd_N_insert. lia.
    + intros x. rewrite Hcount, fd_count_insert. unfold count. simpl.
      destruct (String.string_dec w x); lia.
Qed.

(** The counter counts: [N] is the number of samples, [fd[w]] the number of
    occurrences of [w]. *)
Lemma FreqDist_N (samples : list string) : fd_N (FreqDist samples) = length samples.
Proof.
  destruct (FreqDist_loop samples ∅) as [HN _]. unfold FreqDist. rewrite HN.
  unfold fd_N. by rewrite map_fold_empty.
Qed.

Lemma FreqDist_count (samples : list string) (w : string) :
  fd_count (FreqDist samples) w = count w samples.
Proof.
  destruct (FreqDist_loop samples ∅) as [_ Hcount]. unfold FreqDist. rewrite Hcount.
  unfold fd_count. by rewrite lookup_empty.
Qed.

Lemma fd_freq_ratio `{Number R} (samples : list string) (w : string) :
  samples ≠ [] →
  fd_freq (FreqDist samples) w = ratio (count w samples) (length samples).
Proof.
  intros Hne. unfold fd_freq. rewrite FreqDist_N, FreqDist_count.
  destruct samples; [done|]. reflexivity.
Qed.

Lemma mem_spec (x : string) (l : list string) : mem x l = true ↔ x ∈ l.
Proof.
  induction l as [|y l IH]; simpl.
  - split; [done|]. by intros ?%elem_of_nil.
  - rewrite elem_of_cons. destruct (String.eqb_spec x y) as [->|Hne].
    + split; [by left|done].
    + rewrite IH. split; [by right|]. by intros [?|?].
Qed.

Lemma filter_mem (fwords l : list string) :
  List.filter (λ word, mem word fwords) l = filter (.∈ fwords) l.
Proof.
  induction l as [|x l IH]; simpl; [done|].
  rewrite filter_cons. destruct (mem x fwords) eqn:Hx.
  - apply mem_spec in Hx. rewrite decide_True by done. by rewrite IH.
  - rewrite decide_False; [done|]. rewrite <- mem_spec. congruence.
Qed.

Lemma od_get_set_eq {V} (d : list (string * V)) (k : string) (v : V) :
  od_get (od_set d k v) k = Some v.
Proof.
  induction d as [|[k' v'] d IH]; simpl.
  - by rewrite String.eqb_refl.
  - destruct (String.eqb_spec k' k) as [->|Hne]; simpl.
    + by rewrite String.eqb_refl.
    + destruct (String.eqb_spec k' k); done.
Qed.

Lemma od_get_set_ne {V} (d : list (string * V)) (k k' : string) (v : V) :
  k ≠ k' → od_get (od_set d k v) k' = od_get d k'.
Proof.
  intros Hne. induction d as [|[k0 v0] d IH]; simpl.
  - destruct (String.eqb_spec k k'); done.
  - destruct (String.eqb_spec k0 k) as [->|Hne0]; simpl.
    + destruct (String.eqb_spec k k'); done.
    + destruct (String.eqb_spec k0 k'); done.
Qed.

(** The loop that fills an ordered dictionary with [key -> value_of key]:
    afterwards every key of the loop holds its value, and the other entries
    are as before. *)
Lemma od_fill_loop {V} (value_of : string → result V) (keys : list string)
    (acc d : list (string * V)) :
  foldM (λ d k, v ← value_of k; Ok (od_set d k v)) keys acc = Ok d →
  (∀ k, k ∈ keys → ∃ v, value_of k = Ok v ∧ od_get d k = Some v)
  ∧ (∀ k, k ∉ keys → od_get d k = od_get acc k).
Proof.
  revert acc. induction keys as [|k0 keys IH]; intros acc Hrun; simpl in Hrun.
  - injection Hrun as <-. split; [|done]. by intros k ?%elem_of_nil.
  - destruct (value_of k0) as [v0|e] eqn:Hv0; simpl in Hrun; [|discriminate Hrun].
    destruct (IH _ Hrun) as [Hin Hout]. split.
    + intros k [->|Hk]%elem_of_cons; [|by apply Hin].
      destruct (decide (k0 ∈ keys)) as [Hk0|Hk0]; [by apply Hin|].
      exists v0. split; [done|]. rewrite Hout by done. apply od_get_set_eq.
    + intros k Hk%not_elem_of_cons. destruct Hk as [Hne Hk].
      rewrite Hout by done. by apply od_get_set_ne.
Qed.



(** The example of the spec: ["the", "the", "fox"]. *)
Example fd_freq_spec_example :
  fd_freq (R:=Q) (FreqDist ["the"; "the"; "fox"]) "the" = (2 # 3)%Q
  ∧ fd_freq (R:=Q) (FreqDist ["the"; "the"; "fox"]) "fox" = (1 # 3)%Q.
Proof. split; reflexivity. Qed.

(** The membership test is against the words as they stand, while the
    sentence is lower-cased: a capitalised word of [filtered_words] never
    scores. *)
Example score_case_sensitive :
  score_sentences (R:=Q) plain_lib ["Fox"; "jumps"] ["Fox jumps."]
  = Ok [("Fox jumps.", (1 # 2)%Q)].
Proof. reflexivity. Qed.

(** ** The selector *)

Lemma od_keys_set {V} (d : list (string * V)) (k : string) (v : V) :
  od_keys (od_set d k v) = if decide (k ∈ od_keys d) then od_keys d else od_keys d ++ [k].
Proof.
  induction d as [|[k' v'] d IH]; simpl; [done|].
  destruct (String.eqb_spec k' k) as [->|Hne]; simpl.
  - rewrite decide_True; [done|]. by left.
  - unfold od_keys in *. rewrite IH. simpl.
    destruct (decide (k ∈ map fst d)) as [Hin|Hin].
    + rewrite decide_True; [done|]. by right.
    + rewrite decide_False; [done|]. by intros [?|?]%elem_of_cons.
Qed.

(** The keys after the loop: the keys before it, then a subsequence of the
    keys of the loop; and no key is held twice. *)
Lemma od_fill_keys {V} (value_of : string → result V) (keys : list string)
    (acc d : list (string * V)) :
  foldM (λ d k, v ← value_of k; Ok (od_set d k v)) keys acc = Ok d →
  (∃ rest, od_keys d = od_keys acc ++ rest ∧ sublist rest keys)
  ∧ (NoDup (od_keys acc) → NoDup (od_keys d)).
Proof.
  revert acc. induction keys as [|k0 keys IH]; intros acc Hrun; simpl in Hrun.
  - injection Hrun as <-. split; [|done]. exists []. by rewrite app_nil_r.
  - destruct (value_of k0) as [v0|e]; simpl in Hrun; [|discriminate Hrun].
    destruct (IH _ Hrun) as [(rest & Hkeys & Hsub) Hnodup].
    rewrite od_keys_set in Hkeys, Hnodup.
    destruct (decide (k0 ∈ od_keys acc)) as [Hin|Hin].
    + split; [|done]. exists rest. split; [done|]. by apply sublist_cons.
    + split.
      * exists (k0 :: rest). rewrite Hkeys, <- app_assoc. split; [done|].
        by apply sublist_skip.
      * intros Hacc. apply Hnodup. apply NoDup_app. repeat split; [done| |].
        -- intros x Hx ->%list_elem_of_singleton. done.
        -- apply NoDup_singleton.
Qed.

Lemma insert_desc_perm `{Number R} (x : string * R) (l : list (string * R)) :
  insert_desc x l ≡ₚ x :: l.
Proof.
  induction l as [|y l IH]; simpl; [done|].
  destruct (ltb (snd x) (snd y)); [|done].
  rewrite IH. apply perm_swap.
Qed.

Lemma sorted_desc_perm `{Number R} (d : list (string * R)) :
  sorted_desc d ≡ₚ od_keys d.
Proof.
  unfold sorted_desc, od_keys. apply fmap_Permutation.
  induction d as [|x d IH]; simpl; [done|].
  by rewrite insert_desc_perm, IH.
Qed.

(** The selection holds the top sentences, each once, in the order of the
    keys. *)
Lemma selected_perm_top `{Number R} (scores : list (string * R)) (n : nat) :
  NoDup (od_keys scores) →
  selected_sentences scores n ≡ₚ top_sentences scores n.
Proof.
  intros Hnodup. unfold selected_sentences, top_sentences.
  assert (NoDup (sorted_desc scores)) as Hsorted
    by (by rewrite sorted_desc_perm).
  apply NoDup_Permutation.
  - rewrite filter_mem. by apply NoDup_filter.
  - eapply sublist_NoDup; [done|apply sublist_take].
  - intros x. rewrite filter_mem, list_elem_of_filter.
    split; [by intros [? _]|]. intros Hx. split; [done|].
    rewrite <- sorted_desc_perm. by eapply subseteq_take.
Qed.


Lemma od_fill_first {V} (value_of : string → result V) (keys : list string)
    (acc d : list (string * V)) :
  foldM (λ d k, v ← value_of k; Ok (od_set d k v)) keys acc = Ok d →
  od_keys d = od_keys acc ++ first_occurrences_from (od_keys acc) keys.
Proof.
  revert acc. induction keys as [|k0 keys IH]; intros acc Hrun; simpl in Hrun.
  - injection Hrun as <-. simpl. by rewrite app_nil_r.
  - destruct (value_of k0) as [v0|e]; simpl in Hrun; [|discriminate Hrun].
    rewrite (IH _ Hrun), od_keys_set. simpl.
    destruct (decide (k0 ∈ od_keys acc)) as [Hin|Hin].
    + apply mem_spec in Hin. by rewrite Hin.
    + destruct (mem k0 (od_keys acc)) eqn:Hmem; [by apply mem_spec in Hmem|].
      by rewrite <- app_assoc.
Qed.

Lemma first_occurrences_fresh (seen l : list string) (x : string) :
  x ∈ first_occurrences_from seen l → x ∉ seen.
Proof.
  revert seen. induction l as [|y l IH]; intros seen; simpl.
  - by intros ?%elem_of_nil.
  - destruct (mem y seen) eqn:Hy; [apply IH|].
    intros [->|Hx]%elem_of_cons.
    + rewrite <- mem_spec. congruence.
    + apply IH in Hx. intros Hseen. apply Hx, elem_of_app. by left.
Qed.

Lemma first_occurrences_fresh_last (seen l : list string) (x y : string) :
  x ∈ first_occurrences_from (seen ++ [y]) l → x ≠ y.
Proof.
  intros Hx%first_occurrences_fresh ->. apply Hx, elem_of_app. right. by left.
Qed.

(** In the list of first occurrences, what stands before has occurred
    before: [a] occurs in [l] at a place up to which [b] does not occur. *)
Lemma first_occurrences_order (seen l l1 l2 : list string) (a b : string) :
  first_occurrences_from seen l = l1 ++ a :: l2 → b ∈ l2 →
  ∃ p, l !! p = Some a ∧ ∀ q, q ≤ p → l !! q ≠ Some b.
Proof.
  revert seen l1. induction l as [|x l IH]; intros seen l1; simpl.
  - by destruct l1.
  - destruct (mem x seen) eqn:Hx.
    + intros Hsplit Hb. destruct (IH _ _ Hsplit Hb) as (p & Hp & Hbefore).
      exists (S p). split; [done|]. intros [|q] Hq; simpl; [|apply Hbefore; lia].
      intros [= ->]. apply mem_spec in Hx.
      assert (b ∈ first_occurrences_from seen l) as Hin
        by (rewrite Hsplit; apply elem_of_app; right; by right).
      by apply first_occurrences_fresh in Hin.
    + destruct l1 as [|y l1]; simpl; intros [= <- Hsplit] Hb.
      * exists 0. split; [done|]. intros q Hq. replace q with 0 by lia. simpl.
        intros [= ->]. rewrite <- Hsplit in Hb.
        by apply first_occurrences_fresh_last in Hb.
      * destruct (IH _ _ Hsplit Hb) as (p & Hp & Hbefore).
        exists (S p). split; [done|]. intros [|q] Hq; simpl; [|apply Hbefore; lia].
        intros [= ->].
        assert (b ∈ first_occurrences_from (seen ++ [b]) l) as Hin
          by (rewrite Hsplit; apply elem_of_app; right; by right).
        by apply first_occurrences_fresh_last in Hin.
Qed.

Lemma filter_split {A} (P : A → Prop) `{∀ x, Decision (P x)} (l s1 s2 : list A) (a b : A) :
  filter P l = s1 ++ a :: s2 → b ∈ s2 →
  ∃ l1 l2, l = l1 ++ a :: l2 ∧ b ∈ l2.
Proof.
  revert s1. induction l as [|x l IH]; intros s1; [by destruct s1|].
  rewrite filter_cons. destruct (decide (P x)) as [Hx|Hx].
  - destruct s1 as [|y s1]; simpl; intros [= <- Hsplit] Hb.
    + exists [], l. split; [done|]. rewrite <- Hsplit in Hb.
      by apply list_elem_of_filter in Hb as [_ ?].
    + destruct (IH _ Hsplit Hb) as (l1 & l2 & -> & Hl2). by exists (x :: l1), l2.
  - intros Hsplit Hb. destruct (IH _ Hsplit Hb) as (l1 & l2 & -> & Hl2).
    by exists (x :: l1), l2.
Qed.

Lemma lookup_split {A} (l : list A) (i j : nat) (a b : A) :
  i < j → l !! i = Some a → l !! j = Some b →
  ∃ l1 l2, l = l1 ++ a :: l2 ∧ b ∈ l2.
Proof.
  intros Hij Hi Hj. exists (take i l), (drop (S i) l). split.
  - by rewrite take_drop_middle.
  - apply list_elem_of_lookup. exists (j - S i). rewrite lookup_drop.
    by replace (S i + (j - S i)) with j by lia.
Qed.



(** The example of the spec: with one sentence to select, the one with the
    higher score is selected. *)
Example selected_one_of_two :
  selected_sentences [("the fox jumps", (1 # 3)%Q); ("a dog sleeps", (2 # 3)%Q)] 1
  = ["a dog sleeps"].
Proof. reflexivity. Qed.

(** ** The lexical corrector *)

Section Corrector.
Context (lib : Libraries).

Lemma foldM_extend {A} (pieces : A → result (list A)) (p : A → list A)
    (l acc : list A) :
  (∀ x, x ∈ l → pieces x = Ok (p x)) →
  foldM (λ clean x, ps ← pieces x; Ok (clean ++ ps)) l acc
  = Ok (acc ++ concat (map p l)).
Proof.
  revert acc. induction l as [|x l IH]; intros acc Hp; simpl.
  - by rewrite app_nil_r.
  - rewrite Hp by (by left). simpl. rewrite IH by (intros; apply Hp; by right).
    by rewrite <- app_assoc.
Qed.

Lemma all_checked_on (is_word : string → bool) (ws : list string) :
  (∀ w, w ∈ ws → dict_check lib w = Ok (is_word w)) →
  all_checked lib ws = Ok (forallb is_word ws).
Proof.
  induction ws as [|w ws IH]; intros Hcheck; simpl; [done|].
  rewrite Hcheck by (by left). simpl. destruct (is_word w); [|done].
  apply IH. intros; apply Hcheck; by right.
Qed.

(** Where the dictionary answers, one round of the loop is a pure test. *)
Lemma correct_word_on (is_word : string → bool) (segment : string → list string)
    (word : string) :
  answers lib is_word segment word →
  correct_word lib word
  = Ok (if (5 <? String.length word)%nat && negb (is_word word)
           && forallb is_word (segment word)
        then segment word else [word]).
Proof.
  intros [Hsplit Hcheck]. unfold correct_word. rewrite Hsplit. simpl.
  destruct (Nat.ltb_spec 5 (String.length word)) as [Hlong|Hshort]; [|done].
  destruct (Hcheck Hlong) as [Hword Hsegments]. rewrite Hword. simpl.
  destruct (is_word word); [done|]. simpl.
  rewrite (all_checked_on is_word) by (by apply Hsegments). simpl.
  by destruct (forallb is_word (segment word)).
Qed.

Lemma should_split_test (is_word : string → bool) (segment : string → list string)
    (token : string) :
  (5 <? String.length token)%nat && negb (is_word token)
    && forallb is_word (segment token) = true
  ↔ should_split is_word segment token.
Proof.
  unfold should_split.
  rewrite !andb_true_iff, negb_true_iff, Nat.ltb_lt, forallb_forall.
  setoid_rewrite <- list_elem_of_In. tauto.
Qed.

(** *** Joining plain tokens: nothing for [re.sub] and [strip] to do *)

Lemma lstrip_cons (c : ascii) (s : string) :
  Str.lstrip (String c s) = if Str.is_space c then Str.lstrip s else String c s.
Proof. reflexivity. Qed.

Lemma rstrip_cons (c : ascii) (s : string) :
  Str.rstrip (String c s)
  = match Str.rstrip s with
    | EmptyString => if Str.is_space c then EmptyString else String c EmptyString
    | r => String c r
    end.
Proof. reflexivity. Qed.

Lemma no_space_cons (c : ascii) (t : string) :
  no_space (String c t) = true ↔ Str.is_space c = false ∧ no_space t = true.
Proof. simpl. rewrite andb_true_iff, negb_true_iff. done. Qed.

Lemma collapse_cons (in_run : bool) (c : ascii) (s : string) :
  Str.collapse_from in_run (String c s)
  = if Str.is_space c
    then (if in_run then Str.collapse_from true s
          else String " " (Str.collapse_from true s))
    else String c (Str.collapse_from false s).
Proof. reflexivity. Qed.

Lemma collapse_no_space_app (in_run : bool) (t rest : string) :
  no_space t = true → t ≠ "" →
  Str.collapse_from in_run (t +:+ rest) = t +:+ Str.collapse_from false rest.
Proof.
  revert in_run. induction t as [|c t IH]; intros in_run Ht Hne; [done|].
  apply no_space_cons in Ht as [Hc Ht].
  rewrite !StrFacts.app_cons, collapse_cons, Hc. f_equal.
  destruct t as [|d t]; [done|]. by apply IH.
Qed.

Lemma collapse_no_space (in_run : bool) (t : string) :
  no_space t = true → Str.collapse_from in_run t = t.
Proof.
  revert in_run. induction t as [|c t IH]; intros in_run Ht; [done|].
  apply no_space_cons in Ht as [Hc Ht]. by rewrite collapse_cons, Hc, IH.
Qed.

Lemma join_cons2 (x y : string) (l : list string) :
  Str.join " " (x :: y :: l) = x +:+ String " " (Str.join " " (y :: l)).
Proof. reflexivity. Qed.

Lemma join_plain_ne (y : string) (l : list string) :
  plain y → Str.join " " (y :: l) ≠ "".
Proof.
  intros [Hne _]. destruct y as [|c y]; [done|]. destruct l; [done|].
  rewrite join_cons2, StrFacts.app_cons. done.
Qed.

Lemma collapse_join (in_run : bool) (l : list string) :
  Forall plain l → Str.collapse_from in_run (Str.join " " l) = Str.join " " l.
Proof.
  intros Hl. revert in_run. induction Hl as [|x l [Hne Hx] Hl IH]; intros in_run; [done|].
  destruct l as [|y l]; [by apply collapse_no_space|].
  rewrite join_cons2, collapse_no_space_app by done. f_equal.
  rewrite collapse_cons. change (Str.is_space " ") with true. cbv iota.
  f_equal. apply IH.
Qed.

Lemma lstrip_join (l : list string) :
  Forall plain l → Str.lstrip (Str.join " " l) = Str.join " " l.
Proof.
  intros Hl. destruct Hl as [|x l [Hne Hx] Hl]; [done|].
  destruct x as [|c x]; [done|]. apply no_space_cons in Hx as [Hc Hx].
  destruct l as [|y l].
  - change (Str.join " " [String c x]) with (String c x). by rewrite lstrip_cons, Hc.
  - rewrite join_cons2, StrFacts.app_cons. by rewrite lstrip_cons, Hc.
Qed.

Lemma rstrip_no_space (t : string) : no_space t = true → Str.rstrip t = t.
Proof.
  induction t as [|c t IH]; intros Ht; [done|].
  apply no_space_cons in Ht as [Hc Ht]. rewrite rstrip_cons, IH by done.
  destruct t; [by rewrite Hc|done].
Qed.

Lemma rstrip_app_fixed (s r : string) :
  Str.rstrip r = r → r ≠ "" → Str.rstrip (s +:+ r) = s +:+ r.
Proof.
  intros Hr Hne. induction s as [|c s IH]; [done|].
  rewrite StrFacts.app_cons, rstrip_cons, IH.
  destruct (s +:+ r) eqn:Hsr; [|done].
  destruct s; [done|]. rewrite StrFacts.app_cons in Hsr. done.
Qed.

Lemma rstrip_join (l : list string) :
  Forall plain l → Str.rstrip (Str.join " " l) = Str.join " " l.
Proof.
  intros Hl. induction Hl as [|x l [Hne Hx] Hl IH]; [done|].
  destruct l as [|y l]; [by apply rstrip_no_space|].
  rewrite join_cons2. apply rstrip_app_fixed; [|done].
  rewrite rstrip_cons, IH.
  pose proof (join_plain_ne y l ltac:(by inversion Hl)) as Hjoin.
  by destruct (Str.join " " (y :: l)).
Qed.

(** Plain tokens are joined by single blanks, and that is the text. *)
Lemma render_plain (l : list string) :
  Forall plain l → render l = Str.join " " l.
Proof.
  intros Hl. unfold render, Str.strip, Str.collapse.
  by rewrite collapse_join, lstrip_join, rstrip_join.
Qed.

(** C5. Where the dictionary answers on the tokens of the summary, the
    corrector stores on the object the text made of a piece list per token,
    in the order of the tokens: the segments of the token where the token
    is longer than 5 characters, is not a word, and all its segments are
    words, and the token itself otherwise. The pieces are joined with single
    blanks (tokens and segments being plain: not empty, without white
    space), so a split token is replaced by its space-joined segments and
    every other token is kept. A token of at most 5 characters is never
    split. Nothing but the summary changes on the object. *)
Theorem corrector_spec (is_word : string → bool) (segment : string → list string)
    (self : PDFSummarizer) (tokens : list string) :
  word_tokenize lib (summary self) = Ok tokens →
  (∀ token, token ∈ tokens → answers lib is_word segment token) →
  ∃ (pieces : string → list string) (self' : PDFSummarizer),
    _correct_summary lib self = Ok self'
    ∧ corrected lib (summary self) = Ok (summary self')
    ∧ summary self' = render (concat (map pieces tokens))
    ∧ (Forall plain (concat (map pieces tokens)) →
       summary self' = Str.join " " (concat (map pieces tokens)))
    ∧ self' = set_summary (summary self') self
    ∧ (∀ token, token ∈ tokens → correct_word lib token = Ok (pieces token))
    ∧ ∀ token,
        (should_split is_word segment token → pieces token = segment token)
        ∧ (¬ should_split is_word segment token → pieces token = [token])
        ∧ (String.length token ≤ 5 → pieces token = [token]).
Proof.
  intros Htokens Hanswers.
  set (pieces := λ token, if (5 <? String.length token)%nat && negb (is_word token)
                             && forallb is_word (segment token)
                          then segment token else [token]).
  assert (corrected lib (summary self) = Ok (render (concat (map pieces tokens)))) as Hrun.
  { unfold corrected, clean_words. rewrite Htokens. simpl.
    erewrite (foldM_extend _ pieces); [done|]. intros x Hx.
    by apply correct_word_on, Hanswers. }
  exists pieces, (set_summary (render (concat (map pieces tokens))) self).
  split; [unfold _correct_summary; by rewrite Hrun|].
  split; [done|]. split; [done|]. split; [intros Hplain; by apply render_plain|].
  split; [done|]. split; [intros token Hin; by apply correct_word_on, Hanswers|].
  intros token. subst pieces. simpl.
  pose proof (should_split_test is_word segment token) as Htest.
  destruct ((5 <? String.length token)%nat && negb (is_word token)
            && forallb is_word (segment token)) eqn:Hb.
  - destruct (proj1 Htest eq_refl) as [Hlong ?].
    split; [done|]. split; [|lia].
    intros Hno. destruct Hno. by apply Htest.
  - split; [|done]. intros Hyes%Htest. discriminate Hyes.
Qed.

(** *** Failures of the dictionary *)

Lemma foldM_error {A S} (step : S → A → result S) (l : list A) (x : A) :
  x ∈ l → (∀ acc, is_Err (step acc x)) → ∀ acc, is_Err (foldM step l acc).
Proof.
  intros Hx Hfail. induction l as [|y l IH]; intros acc; simpl.
  - by apply elem_of_nil in Hx.
  - destruct (step acc y) as [acc'|e] eqn:Hy; simpl; [|by exists e].
    apply elem_of_cons in Hx as [->|Hx]; [|by apply IH].
    destruct (Hfail acc) as [e He]. congruence.
Qed.

(** The first segment the dictionary fails on, the earlier ones being
    words, makes the check of the segments fail. *)
Lemma all_checked_error (known : list string) (s : string) (rest : list string) :
  (∀ w, w ∈ known → dict_check lib w = Ok true) →
  is_Err (dict_check lib s) →
  is_Err (all_checked lib (known ++ s :: rest)).
Proof.
  intros Hknown [e He]. induction known as [|w known IH]; simpl.
  - rewrite He. by exists e.
  - rewrite Hknown by (by left). simpl. apply IH. intros; apply Hknown; by right.
Qed.

Lemma correct_word_error (token : string) :
  oracle_fails_on lib token → is_Err (correct_word lib token).
Proof.
  unfold correct_word.
  intros [[e He]|[[Hlen [e He]]|(Hlen & Hfalse & known & s & rest & Hsplit & Hknown & Hs)]].
  - rewrite He. by exists e.
  - destruct (wordninja_split lib token) as [segs|e']; simpl; [|by exists e'].
    apply Nat.ltb_lt in Hlen. rewrite Hlen, He. by exists e.
  - rewrite Hsplit. simpl. apply Nat.ltb_lt in Hlen. rewrite Hlen, Hfalse. simpl.
    destruct (all_checked_error known s rest Hknown Hs) as [e He].
    rewrite He. by exists e.
Qed.

Lemma bind_Ok_l {A B} (a : A) (k : A → result B) : (x ← Ok a; k x) = k a.
Proof. reflexivity. Qed.


End Corrector.

Lemma corrector_spec_witness :
  word_tokenize dict_lib (summary (set_summary "the quickbrown   dog" small_self))
  = Ok ["the"; "quickbrown"; "dog"]
  ∧ (∀ token, token ∈ ["the"; "quickbrown"; "dog"] →
              answers dict_lib (λ w, mem w small_dictionary) table_split token)
  ∧ _correct_summary dict_lib (set_summary "the quickbrown   dog" small_self)
    = Ok (set_summary "the quick brown dog" small_self)
  ∧ ∃ (pieces : string → list string) (self' : PDFSummarizer),
      _correct_summary dict_lib (set_summary "the quickbrown   dog" small_self) = Ok self'
      ∧ corrected dict_lib (summary (set_summary "the quickbrown   dog" small_self))
        = Ok (summary self')
      ∧ summary self' = render (concat (map pieces ["the"; "quickbrown"; "dog"]))
      ∧ (Forall plain (concat (map pieces ["the"; "quickbrown"; "dog"])) →
         summary self' = Str.join " " (concat (map pieces ["the"; "quickbrown"; "dog"])))
      ∧ self' = set_summary (summary self') (set_summary "the quickbrown   dog" small_self)
      ∧ (∀ token, token ∈ ["the"; "quickbrown"; "dog"] →
                  correct_word dict_lib token = Ok (pieces token))
      ∧ ∀ token,
          (should_split (λ w, mem w small_dictionary) table_split token →
           pieces token = table_split token)
          ∧ (¬ should_split (λ w, mem w small_dictionary) table_split token →
             pieces token = [token])
          ∧ (String.length token ≤ 5 → pieces token = [token]).
Proof.
  assert (∀ token, token ∈ ["the"; "quickbrown"; "dog"] →
                   answers dict_lib (λ w, mem w small_dictionary) table_split token)
    as Hanswers.
  { intros token _. split; [reflexivity|]. intros _. split; [reflexivity|].
    intros _ s _. reflexivity. }
  split; [vm_compute; reflexivity|]. split; [exact Hanswers|].
  split; [vm_compute; reflexivity|].
  apply (corrector_spec dict_lib (λ w, mem w small_dictionary) table_split
           (set_summary "the quickbrown   dog" small_self) ["the"; "quickbrown"; "dog"]).
  - vm_compute; reflexivity.
  - exact Hanswers.
Defined.

(** The examples of the spec: "quickbrown" is split, "dog" is never split, not
    even by a dictionary that does not know it. *)
Example corrected_spec_example :
  corrected dict_lib "the quickbrown dog" = Ok "the quick brown dog"
  ∧ correct_word dict_lib "quickbrown" = Ok ["quick"; "brown"]
  ∧ correct_word dict_lib "dgo" = Ok ["dgo"].
Proof. repeat split; vm_compute; reflexivity. Qed.



(** *** Idempotence *)

Section Idempotence.
Context (lib : Libraries).
Hypothesis split_answers : ∀ w, is_Ok (wordninja_split lib w).

Lemma all_checked_true (ws : list string) :
  all_checked lib ws = Ok true → ∀ w, w ∈ ws → dict_check lib w = Ok true.
Proof.
  induction ws as [|w0 ws IH]; simpl; intros Hall w Hw.
  - by apply elem_of_nil in Hw.
  - destruct (dict_check lib w0) as [[|]|e] eqn:Hw0; simpl in Hall; try discriminate Hall.
    apply elem_of_cons in Hw as [->|Hw]; [done|by apply IH].
Qed.

(** A word of the dictionary is left as it is. *)
Lemma correct_word_known (w : string) :
  dict_check lib w = Ok true → correct_word lib w = Ok [w].
Proof.
  intros Hw. unfold correct_word. destruct (split_answers w) as [segs ->]. simpl.
  destruct (5 <? String.length w)%nat; [|done]. by rewrite Hw.
Qed.

(** Every piece that one round puts into the summary is left as it is by
    another round. *)
Lemma correct_word_fixed (token : string) (pieces : list string) :
  correct_word lib token = Ok pieces →
  ∀ c, c ∈ pieces → correct_word lib c = Ok [c].
Proof.
  intros Hrun c Hc. pose proof Hrun as Hrun'. unfold correct_word in Hrun.
  destruct (wordninja_split lib token) as [segs|e]; simpl in Hrun; [|discriminate Hrun].
  destruct (5 <? String.length token)%nat.
  - destruct (dict_check lib token) as [[|]|e]; simpl in Hrun; try discriminate Hrun.
    + injection Hrun as <-. apply list_elem_of_singleton in Hc as ->. done.
    + destruct (all_checked lib segs) as [[|]|e] eqn:Hall; simpl in Hrun;
        try discriminate Hrun; injection Hrun as <-.
      * apply correct_word_known. by eapply all_checked_true.
      * apply list_elem_of_singleton in Hc as ->. done.
  - injection Hrun as <-. apply list_elem_of_singleton in Hc as ->. done.
Qed.

Lemma clean_words_fixed_from (tokens acc clean : list string) :
  foldM (λ clean word, pieces ← correct_word lib word; Ok (clean ++ pieces)) tokens acc
  = Ok clean →
  (∀ c, c ∈ acc → correct_word lib c = Ok [c]) →
  ∀ c, c ∈ clean → correct_word lib c = Ok [c].
Proof.
  revert acc. induction tokens as [|t tokens IH]; intros acc Hrun Hacc; simpl in Hrun.
  - by injection Hrun as <-.
  - destruct (correct_word lib t) as [pieces|e] eqn:Ht; simpl in Hrun; [|discriminate Hrun].
    apply (IH _ Hrun). intros c [Hc|Hc]%elem_of_app; [by apply Hacc|].
    by eapply correct_word_fixed.
Qed.

Lemma clean_words_fixed (clean : list string) :
  (∀ c, c ∈ clean → correct_word lib c = Ok [c]) →
  clean_words lib clean = Ok clean.
Proof.
  intros Hfixed. unfold clean_words.
  rewrite (foldM_extend (correct_word lib) (λ c, [c])) by done.
  simpl. f_equal. induction clean as [|c clean IH]; simpl; [done|].
  f_equal. apply IH. intros; apply Hfixed; by right.
Qed.

(** C8, amended. When the segmentation answers for every token, and the
    tokenizer reads the corrected summary back as the pieces that were
    joined, the corrector leaves its own output unchanged. *)
Theorem corrected_idempotent (summary : string) (tokens clean : list string) :
  word_tokenize lib summary = Ok tokens →
  clean_words lib tokens = Ok clean →
  word_tokenize lib (render clean) = Ok clean →
  corrected lib summary = Ok (render clean)
  ∧ corrected lib (render clean) = Ok (render clean).
Proof.
  intros Htokens Hclean Hback. unfold corrected.
  rewrite Htokens, Hback. simpl. rewrite Hclean. simpl. split; [done|].
  rewrite clean_words_fixed; [done|].
  eapply clean_words_fixed_from; [exact Hclean|]. by intros c ?%elem_of_nil.
Qed.

End Idempotence.

(** C8, as the claim states it, fails. The fused token of wordninja's
    documentation is split into words that carry their clitic; read again,
    the Treebank tokenizer takes each clitic off its word, and the second
    pass gives another text. *)
Lemma corrected_not_idempotent :
  corrected dict_lib "that'sthesheriff'sbadge" = Ok "that's the sheriff's badge"
  ∧ corrected dict_lib "that's the sheriff's badge" = Ok "that 's the sheriff 's badge"
  ∧ corrected dict_lib "that's the sheriff's badge" ≠ Ok "that's the sheriff's badge".
Proof.
  split; [vm_compute; reflexivity|]. split; [vm_compute; reflexivity|].
  vm_compute. discriminate.
Qed.

Lemma corrected_idempotent_witness :
  (∀ w, is_Ok (wordninja_split dict_lib w))
  ∧ word_tokenize dict_lib "the quickbrown dog" = Ok ["the"; "quickbrown"; "dog"]
  ∧ clean_words dict_lib ["the"; "quickbrown"; "dog"] = Ok ["the"; "quick"; "brown"; "dog"]
  ∧ word_tokenize dict_lib (render ["the"; "quick"; "brown"; "dog"])
    = Ok ["the"; "quick"; "brown"; "dog"]
  ∧ corrected dict_lib "the quickbrown dog" = Ok (render ["the"; "quick"; "brown"; "dog"])
  ∧ corrected dict_lib (render ["the"; "quick"; "brown"; "dog"])
    = Ok (render ["the"; "quick"; "brown"; "dog"]).
Proof.
  assert (∀ w, is_Ok (wordninja_split dict_lib w)) as Hsplit
    by (intros w; by exists (table_split w)).
  split; [exact Hsplit|].
  split; [vm_compute; reflexivity|]. split; [vm_compute; reflexivity|].
  split; [vm_compute; reflexivity|].
  apply (corrected_idempotent dict_lib Hsplit "the quickbrown dog"
           ["the"; "quickbrown"; "dog"] ["the"; "quick"; "brown"; "dog"]);
    vm_compute; reflexivity.
Defined.

(** ** State across invocations *)

Lemma bind_Ok {A B} (m : result A) (k : A → result B) (b : B) :
  (x ← m; k x) = Ok b → ∃ a, m = Ok a ∧ k a = Ok b.
Proof. destruct m as [a|e]; simpl; [|done]. intros Hk. by exists a. Qed.

(** Every [summarize] that returns leaves the chunk size at 1024 on the
    object, whatever it was. *)
Lemma summarize_sets_chunk_size `{Number R} (lib : Libraries) (self self' : PDFSummarizer) :
  summarize lib self = Ok self' → CHUNK_SIZE self' = 1024.
Proof.
  unfold summarize. intros (scored & _ & Hcondense)%bind_Ok.
  unfold condense in Hcondense.
  apply bind_Ok in Hcondense as (raw & _ & Hcondense).
  apply bind_Ok in Hcondense as (futures & _ & Hcondense).
  unfold _correct_summary in Hcondense.
  apply bind_Ok in Hcondense as (s & _ & Hs). by injection Hs as <-.
Qed.

(** C9: the claim does not hold of the code. A text of 4096 one-letter words
    and then "ab": the first [summarize] works with slices of 4096 elements,
    reaches all 4097 words and keeps "ab"; it leaves [CHUNK_SIZE] at 1024 on
    the object, so the second [summarize], on the same object and the same
    text, reaches the first 4096 words only and keeps none. *)
Theorem summarize_second_run_differs :
  (self0 ← init ∅ (repeat_str 4096 "a " +:+ "ab");
   self1 ← summarize (R:=Q) plain_lib self0;
   self2 ← summarize (R:=Q) plain_lib self1;
   Ok (CHUNK_SIZE self0, length (words self1), filtered_words self1,
       CHUNK_SIZE self1, length (words self2), filtered_words self2))
  = Ok (4096, 4097, ["ab"], 1024, 4097, []).
Proof. vm_compute. reflexivity. Qed.


(** * Further properties of the code *)

(** ** The chunker, again *)

Lemma split_text_positive (text : string) (chunk_size : Z) :
  (0 < chunk_size)%Z →
  split_text text chunk_size
  = Ok (map (λ i, Str.slice text i (i + chunk_size))
            (range_up (Z.to_nat (Str.len text)) 0 (Str.len text) chunk_size)).
Proof.
  intros Hcs. unfold split_text, range.
  destruct (Z.eqb_spec chunk_size 0); [lia|].
  destruct (Z.ltb_spec 0 chunk_size); [|lia].
  by rewrite Z.sub_0_r.
Qed.

Lemma range_up_full text fuel i w :
  (0 < w)%Z → (0 ≤ i)%Z →
  let chunks := map (λ i, Str.slice text i (i + w)) (range_up fuel i (Str.len text) w) in
  Forall (λ chunk, chunk ≠ "") chunks
  ∧ ∀ j chunk, chunks !! j = Some chunk → S j < length chunks → Str.len chunk = w.
Proof.
  intros Hw. revert i. induction fuel as [|fuel IH]; intros i Hi; simpl.
  - split; [constructor|]. intros j chunk Hj. done.
  - destruct (Z.ltb_spec i (Str.len text)) as [Hlt|Hge]; simpl.
    + destruct (IH (i + w)%Z ltac:(lia)) as [Hne Hfull]. split.
      * constructor; [|done]. rewrite StrFacts.slice_inside by done.
        intros Hempty%(f_equal String.length).
        rewrite StrFacts.length_take, StrFacts.length_drop in Hempty.
        unfold Str.len in *. simpl in Hempty. lia.
      * intros [|j] chunk Hj Hlen; simpl in *.
        -- injection Hj as <-. rewrite StrFacts.slice_inside by done.
           unfold Str.len. rewrite StrFacts.length_take, StrFacts.length_drop.
           destruct fuel as [|fuel']; simpl in Hlen; [lia|].
           destruct (Z.ltb_spec (i + w) (Str.len text)); simpl in Hlen; [|lia].
           unfold Str.len in *. lia.
        -- apply (Hfull j chunk Hj). lia.
    + split; [constructor|]. intros j chunk Hj. done.
Qed.

(** X1. For a positive chunk size no chunk of [split_text] is empty, and
    every chunk but the last has exactly [chunk_size] characters. *)
Theorem split_text_full_chunks (text : string) (chunk_size : Z) (chunks : list string) :
  (0 < chunk_size)%Z →
  split_text text chunk_size = Ok chunks →
  Forall (λ chunk, chunk ≠ "") chunks
  ∧ ∀ j chunk, chunks !! j = Some chunk → S j < length chunks →
               Str.len chunk = chunk_size.
Proof.
  intros Hcs Hrun. rewrite split_text_positive in Hrun by done.
  injection Hrun as <-. apply range_up_full; lia.
Qed.

Lemma split_text_full_chunks_witness :
  (0 < 3)%Z ∧ split_text "abcdefgh" 3 = Ok ["abc"; "def"; "gh"]
  ∧ Forall (λ chunk, chunk ≠ "") ["abc"; "def"; "gh"]
  ∧ ∀ j chunk, ["abc"; "def"; "gh"] !! j = Some chunk → S j < length ["abc"; "def"; "gh"] →
               Str.len chunk = 3%Z.
Proof.
  split; [lia|]. split; [reflexivity|].
  apply (split_text_full_chunks "abcdefgh" 3 ["abc"; "def"; "gh"]); [lia|reflexivity].
Defined.

(** X2. [__init__] never fails on a text: the object it builds has chunks of
    at most 4096 characters that join to the text, the class chunk size and
    an empty summary. *)
Theorem init_chunks (stop : gset string) (text : string) :
  ∃ self,
    init stop text = Ok self
    ∧ Str.cat (chunks self) = text
    ∧ Forall (λ chunk, (Str.len chunk ≤ 4096)%Z) (chunks self)
    ∧ CHUNK_SIZE self = 4096 ∧ summary self = "" ∧ stop_words self = stop.
Proof.
  unfold init. rewrite split_text_positive by lia. simpl.
  eexists. split; [reflexivity|]. simpl. split.
  - replace (Z.to_nat (Str.len text)) with (Z.to_nat (Str.len text - 0)) by (f_equal; lia).
    rewrite range_up_chunks; [done|lia|lia|]. unfold Str.len. lia.
  - split; [|done]. apply Forall_map.
    eapply Forall_impl; [apply (range_up_bounds _ 0); lia|].
    intros i Hi. simpl in *. rewrite StrFacts.slice_inside by lia.
    unfold Str.len. rewrite StrFacts.length_take. lia.
Qed.

(** ** The engine, again *)

Lemma islice_width {A} (l : list A) (a w : nat) :
  islice l a (a + w) = take w (drop a l).
Proof. unfold islice. f_equal. lia. Qed.

Lemma workers_cover {A B} (operation : list A → result (list B)) (tokens : list A)
    (cs n k : nat) :
  distributes operation →
  (results ← mapM id (map (λ i, operation (islice tokens (i * cs) (i * cs + cs))) (seq k n));
   Ok (concat results))
  = operation (take (n * cs) (drop (k * cs) tokens)).
Proof.
  intros [Hnil Happ]. revert k. induction n as [|n IH]; intros k; simpl.
  - by rewrite take_0, Hnil.
  - rewrite islice_width.
    rewrite <- (take_take_drop (drop (k * cs) tokens) cs (n * cs)), Happ.
    rewrite drop_drop. replace (k * cs + cs) with (S k * cs) by (simpl; lia).
    rewrite <- IH.
    destruct (operation (take cs (drop (k * cs) tokens))) as [y|e]; simpl; [|done].
    destruct (mapM id _) as [ys|e]; simpl; done.
Qed.

Lemma process_concurrently_take {A B} (self : PDFSummarizer) (tokens : list A)
    (W : Z) (operation : list A → result (list B)) :
  (0 < W)%Z →
  distributes operation →
  process_concurrently self tokens W operation
  = operation (take (Z.to_nat W * CHUNK_SIZE self) tokens).
Proof.
  intros HW Hop. unfold process_concurrently. destruct (Z.leb_spec W 0); [lia|].
  rewrite (futures_loop (λ i, operation (islice tokens (i * CHUNK_SIZE self)
                                           (i * CHUNK_SIZE self + CHUNK_SIZE self)))).
  simpl. by rewrite (workers_cover operation tokens (CHUNK_SIZE self) _ 0 Hop).
Qed.

(** X3. For an operation that works element by element (the tokenizers and
    the filters do) the engine with [W > 0] workers computes the operation
    on the first [W * CHUNK_SIZE] elements of its input, failures included;
    on an input no longer than that it computes the operation on the whole
    input. *)
Theorem process_concurrently_prefix {A B} (self : PDFSummarizer) (tokens : list A)
    (W : Z) (operation : list A → result (list B)) :
  (0 < W)%Z →
  distributes operation →
  process_concurrently self tokens W operation
  = operation (take (Z.to_nat W * CHUNK_SIZE self) tokens)
  ∧ (length tokens ≤ Z.to_nat W * CHUNK_SIZE self →
     process_concurrently self tokens W operation = operation tokens).
Proof.
  intros HW Hop. rewrite process_concurrently_take by done.
  split; [done|]. intros Hlen. by rewrite take_ge.
Qed.

Lemma mapM_app {A B} (f : A → result B) (a b : list A) :
  mapM f (a ++ b) = (ra ← mapM f a; rb ← mapM f b; Ok (ra ++ rb)).
Proof.
  induction a as [|x a IH]; simpl.
  - by destruct (mapM f b).
  - destruct (f x) as [y|e]; simpl; [|done]. rewrite IH.
    destruct (mapM f a) as [ra|e]; simpl; [|done].
    by destruct (mapM f b).
Qed.

Lemma per_item_distributes {A B} (f : A → result (list B)) :
  distributes (λ l, rs ← mapM f l; Ok (concat rs)).
Proof.
  split; [done|]. intros a b. rewrite mapM_app.
  destruct (mapM f a) as [ra|e]; simpl; [|done].
  destruct (mapM f b) as [rb|e]; simpl; [|done].
  by rewrite concat_app.
Qed.

Lemma tokenize_sentences_distributes (lib : Libraries) :
  distributes (tokenize_sentences lib).
Proof. apply (per_item_distributes (sent_tokenize lib)). Qed.

Lemma tokenize_words_distributes (lib : Libraries) :
  distributes (tokenize_words lib).
Proof. apply (per_item_distributes (word_tokenize lib)). Qed.

Lemma filter_distributes {A} (keep : A → bool) :
  distributes (λ l, Ok (List.filter keep l)).
Proof. split; [done|]. intros a b. simpl. by rewrite List.filter_app. Qed.

Lemma process_concurrently_prefix_witness :
  (0 < 2)%Z
  ∧ distributes (tokenize_words plain_lib)
  ∧ process_concurrently small_self ["a b."; "c"; "d e"; "f g"; "h"] 2 (tokenize_words plain_lib)
    = tokenize_words plain_lib (take (Z.to_nat 2 * CHUNK_SIZE small_self)
                                     ["a b."; "c"; "d e"; "f g"; "h"])
  ∧ (length ["a b."; "c"; "d e"; "f g"; "h"] ≤ Z.to_nat 2 * CHUNK_SIZE small_self →
     process_concurrently small_self ["a b."; "c"; "d e"; "f g"; "h"] 2
       (tokenize_words plain_lib)
     = tokenize_words plain_lib ["a b."; "c"; "d e"; "f g"; "h"]).
Proof.
  split; [lia|]. split; [apply tokenize_words_distributes|].
  apply (process_concurrently_prefix small_self ["a b."; "c"; "d e"; "f g"; "h"] 2
           (tokenize_words plain_lib)); [lia|apply tokenize_words_distributes].
Defined.

Lemma mapM_id_error {A} (pre post : list (result A)) (e : exn) :
  Forall is_Ok pre → mapM id (pre ++ Err e :: post) = Err e.
Proof.
  induction pre as [|r pre IH]; intros Hpre; simpl; [done|].
  apply Forall_cons in Hpre as [[a ->] Hpre]. simpl. by rewrite IH.
Qed.

(** X4. When the operation fails on the slice of worker [i] and returns on
    the slices of the workers before it, the engine fails with that very
    error: the failure of the first worker, in the order of submission, is
    the one that is raised, whatever the later workers do. *)
Theorem process_concurrently_first_error {A B} (self : PDFSummarizer) (tokens : list A)
    (W : Z) (operation : list A → result (list B)) (i : nat) (e : exn) :
  i < Z.to_nat W →
  operation (islice tokens (i * CHUNK_SIZE self) (i * CHUNK_SIZE self + CHUNK_SIZE self))
  = Err e →
  (∀ j, j < i →
        is_Ok (operation (islice tokens (j * CHUNK_SIZE self)
                                        (j * CHUNK_SIZE self + CHUNK_SIZE self)))) →
  process_concurrently self tokens W operation = Err e.
Proof.
  intros Hi Hfail Hbefore. unfold process_concurrently.
  destruct (Z.leb_spec W 0); [lia|].
  rewrite (futures_loop (λ i, operation (islice tokens (i * CHUNK_SIZE self)
                                           (i * CHUNK_SIZE self + CHUNK_SIZE self)))).
  simpl. replace (Z.to_nat W) with (i + S (Z.to_nat W - S i)) by lia.
  rewrite seq_app, map_app. simpl. rewrite Hfail.
  rewrite mapM_id_error; [done|].
  apply Forall_map, Forall_forall. intros j Hj%elem_of_seq. apply Hbefore. lia.
Qed.

Lemma process_concurrently_first_error_witness :
  1 < Z.to_nat 4
  ∧ tokenize_words failing_lib (islice ["a"; "b"; "c"; "d"; "e"] 0 2) = Ok ["a"; "b"]
  ∧ process_concurrently small_self ["a"; "b"; "c"; "d"; "e"] 4
      (λ chunk, match chunk with
                | "c" :: _ => Err (Raised "worker 1")
                | "e" :: _ => Err (Raised "worker 2")
                | _ => tokenize_words failing_lib chunk
                end)
    = Err (Raised "worker 1").
Proof.
  split; [simpl; lia|]. split; [vm_compute; reflexivity|].
  apply (process_concurrently_first_error small_self ["a"; "b"; "c"; "d"; "e"] 4 _ 1).
  - simpl; lia.
  - reflexivity.
  - intros j Hj. replace j with 0 by lia. by eexists.
Defined.

(** ** The word filter *)

(** X5. [filter_words] returns exactly the words that are not stop words and
    are longer than one character, in their original order; filtering again
    changes nothing. *)
Theorem filter_words_spec (self : PDFSummarizer) (chunks : list string) :
  filter_words self chunks
  = filter (λ word, (word ∉ stop_words self) ∧ 1 < String.length word) chunks
  ∧ filter_words self (filter_words self chunks) = filter_words self chunks.
Proof.
  assert (∀ l, filter_words self l
               = filter (λ word, (word ∉ stop_words self) ∧ 1 < String.length word) l)
    as Hspec.
  { intros l. unfold filter_words. induction l as [|w l IH]; simpl; [done|].
    rewrite filter_cons, <- IH.
    destruct (decide ((w ∉ stop_words self) ∧ 1 < String.length w)) as [[Hw Hlen]|Hno].
    - rewrite bool_decide_eq_true_2 by done.
      apply Nat.ltb_lt in Hlen. by rewrite Hlen.
    - destruct (bool_decide (w ∉ stop_words self)) eqn:Hw; simpl; [|done].
      apply bool_decide_eq_true_1 in Hw.
      destruct (Nat.ltb_spec 1 (String.length w)); [|done].
      destruct Hno. done. }
  split; [apply Hspec|]. rewrite !Hspec, list_filter_filter.
  apply list_filter_iff. tauto.
Qed.

Example filter_words_example :
  filter_words small_self ["the"; "fox"; "a"; "."; "The"; "fox"] = ["fox"; "The"; "fox"].
Proof. vm_compute. reflexivity. Qed.

(** ** The stages of [summarize] *)

(** X6. What the first half of [summarize] leaves on the object: each stage
    sees only the first [4 * CHUNK_SIZE] elements of the list before it, the
    sentences come from the chunks, the words from the sentences, the two
    filtered lists from those, and the scores from the filtered lists; the
    text, the chunks, the stop words, the chunk size and the summary are
    untouched. *)
Theorem tokenize_and_score_stages `{Number R} (lib : Libraries)
    (self self' : PDFSummarizer) (scores : list (string * R)) :
  tokenize_and_score lib self = Ok (self', scores) →
  tokenize_sentences lib (take (4 * CHUNK_SIZE self) (chunks self)) = Ok (sentences self')
  ∧ tokenize_words lib (take (4 * CHUNK_SIZE self) (sentences self')) = Ok (words self')
  ∧ filtered_sentences self' = filter_sentences (take (4 * CHUNK_SIZE self) (sentences self'))
  ∧ filtered_words self' = filter_words self (take (4 * CHUNK_SIZE self) (words self'))
  ∧ score_sentences lib (filtered_words self') (filtered_sentences self') = Ok scores
  ∧ text self' = text self ∧ chunks self' = chunks self
  ∧ stop_words self' = stop_words self ∧ CHUNK_SIZE self' = CHUNK_SIZE self
  ∧ summary self' = summary self.
Proof.
  unfold tokenize_and_score. intros Hrun.
  rewrite process_concurrently_take in Hrun
    by (lia || apply tokenize_sentences_distributes).
  apply bind_Ok in Hrun as (ss & Hss & Hrun).
  rewrite process_concurrently_take in Hrun
    by (lia || apply tokenize_words_distributes).
  apply bind_Ok in Hrun as (ws & Hws & Hrun).
  rewrite (process_concurrently_take _ _ 4 (λ c, Ok (filter_sentences c))) in Hrun
    by (lia || apply filter_distributes).
  apply bind_Ok in Hrun as (fss & Hfss & Hrun). injection Hfss as <-.
  rewrite (process_concurrently_take _ _ 4 (λ c, Ok (filter_words _ c))) in Hrun
    by (lia || apply filter_distributes).
  apply bind_Ok in Hrun as (fws & Hfws & Hrun). injection Hfws as <-.
  apply bind_Ok in Hrun as (sc & Hsc & Hrun).
  injection Hrun as <- <-. simpl in *. done.
Qed.

Lemma tokenize_and_score_stages_witness :
  tokenize_and_score (R:=Q) plain_lib
    {| stop_words := {["the"]}; text := "A fox. The dog."; chunks := ["A fox. The dog."];
       CHUNK_SIZE := 4096; sentences := []; words := []; filtered_sentences := [];
       filtered_words := []; summary := "" |}
  = Ok ({| stop_words := {["the"]}; text := "A fox. The dog."; chunks := ["A fox. The dog."];
           CHUNK_SIZE := 4096; sentences := ["A fox."; "The dog."];
           words := ["A"; "fox"; "."; "The"; "dog"; "."];
           filtered_sentences := ["A fox."; "The dog."];
           filtered_words := ["fox"; "The"; "dog"]; summary := "" |},
        [("A fox.", (1 # 3)%Q); ("The dog.", (1 # 3)%Q)])
  ∧ tokenize_words plain_lib (take (4 * 4096) ["A fox."; "The dog."])
    = Ok ["A"; "fox"; "."; "The"; "dog"; "."].
Proof.
  assert (tokenize_and_score (R:=Q) plain_lib
            {| stop_words := {["the"]}; text := "A fox. The dog.";
               chunks := ["A fox. The dog."];
               CHUNK_SIZE := 4096; sentences := []; words := []; filtered_sentences := [];
               filtered_words := []; summary := "" |}
          = Ok ({| stop_words := {["the"]}; text := "A fox. The dog.";
                   chunks := ["A fox. The dog."];
                   CHUNK_SIZE := 4096; sentences := ["A fox."; "The dog."];
                   words := ["A"; "fox"; "."; "The"; "dog"; "."];
                   filtered_sentences := ["A fox."; "The dog."];
                   filtered_words := ["fox"; "The"; "dog"]; summary := "" |},
                [("A fox.", (1 # 3)%Q); ("The dog.", (1 # 3)%Q)])) as Hrun
    by (vm_compute; reflexivity).
  split; [exact Hrun|].
  exact (proj1 (proj2 (tokenize_and_score_stages plain_lib _ _ _ Hrun))).
Defined.

(** ** The scores and the selection, again *)

Lemma od_get_elem {V} (d : list (string * V)) (k : string) (v : V) :
  od_get d k = Some v → (k, v) ∈ d.
Proof.
  induction d as [|[k' v'] d IH]; simpl; [done|].
  destruct (String.eqb_spec k' k) as [->|Hne].
  - intros [= ->]. by left.
  - intros Hget. right. by apply IH.
Qed.

Lemma od_elem_get {V} (d : list (string * V)) (k : string) (v : V) :
  NoDup (od_keys d) → (k, v) ∈ d → od_get d k = Some v.
Proof.
  unfold od_keys. induction d as [|[k' v'] d IH]; simpl; intros Hnodup Hin.
  - by apply elem_of_nil in Hin.
  - apply NoDup_cons in Hnodup as [Hk' Hnodup].
    apply elem_of_cons in Hin as [[= -> ->]|Hin].
    + by rewrite String.eqb_refl.
    + destruct (String.eqb_spec k' k) as [->|Hne]; [|by apply IH].
      destruct Hk'. apply list_elem_of_fmap. by exists (k, v).
Qed.

Lemma od_get_key {V} (d : list (string * V)) (k : string) :
  k ∈ od_keys d ↔ is_Some (od_get d k).
Proof.
  unfold od_keys. induction d as [|[k' v'] d IH]; simpl.
  - split; [by intros ?%elem_of_nil|by intros [? ?]].
  - rewrite elem_of_cons. destruct (String.eqb_spec k' k) as [->|Hne].
    + split; [by eexists|by left].
    + rewrite IH. split; [by intros [?|?]|by right].
Qed.

(** X7. After the scoring loop the scores hold every filtered sentence
    exactly once, however often it occurs: the keys have no duplicate, they
    are the sentences of [filtered_sentences], and there are no more of them
    than sentences. *)
Theorem scores_keys `{Number R} (lib : Libraries)
    (fwords fsentences : list string) (scores : list (string * R)) :
  score_sentences lib fwords fsentences = Ok scores →
  NoDup (od_keys scores)
  ∧ (∀ sentence, sentence ∈ od_keys scores ↔ sentence ∈ fsentences)
  ∧ length scores ≤ length fsentences.
Proof.
  intros Hrun. unfold score_sentences in Hrun.
  pose proof (od_fill_keys _ _ _ _ Hrun) as [(rest & Hkeys & Hsub) Hnodup].
  pose proof (od_fill_loop _ _ _ _ Hrun) as [Hin _].
  simpl in Hkeys. split; [apply Hnodup; constructor|]. split.
  - intros sentence. split.
    + rewrite Hkeys. intros Hs. by eapply elem_of_sublist.
    + intros Hs. destruct (Hin sentence Hs) as (v & _ & Hget).
      apply od_get_key. by eexists.
  - replace (length scores) with (length (od_keys scores))
      by (unfold od_keys; apply length_map).
    rewrite Hkeys. by apply sublist_length.
Qed.

Lemma scores_keys_witness :
  score_sentences (R:=Q) plain_lib ["fox"; "dog"] ["A fox."; "A dog."; "A fox."]
  = Ok [("A fox.", (1 # 2)%Q); ("A dog.", (1 # 2)%Q)]
  ∧ NoDup (od_keys [("A fox.", (1 # 2)%Q); ("A dog.", (1 # 2)%Q)])
  ∧ (∀ sentence, sentence ∈ od_keys [("A fox.", (1 # 2)%Q); ("A dog.", (1 # 2)%Q)]
                 ↔ sentence ∈ ["A fox."; "A dog."; "A fox."])
  ∧ length [("A fox.", (1 # 2)%Q); ("A dog.", (1 # 2)%Q)]
    ≤ length ["A fox."; "A dog."; "A fox."].
Proof.
  split; [vm_compute; reflexivity|].
  apply (scores_keys (R:=Q) plain_lib ["fox"; "dog"] ["A fox."; "A dog."; "A fox."]).
  vm_compute; reflexivity.
Defined.

(** X8. The selection never holds more than [n] sentences: it holds [n] of
    them, or all the distinct filtered sentences when there are fewer. *)
Theorem selected_bound `{Number R} (lib : Libraries)
    (fwords fsentences : list string) (scores : list (string * R)) (n : nat) :
  score_sentences lib fwords fsentences = Ok scores →
  length (selected_sentences scores n) = n `min` length scores
  ∧ length (selected_sentences scores n) ≤ n.
Proof.
  intros Hrun. unfold score_sentences in Hrun.
  pose proof (od_fill_keys _ _ _ _ Hrun) as [_ Hnodup].
  assert (length (selected_sentences scores n) = n `min` length scores) as Hlen.
  { rewrite (selected_perm_top scores n) by (apply Hnodup; constructor).
    unfold top_sentences. rewrite length_take. f_equal.
    rewrite sorted_desc_perm. unfold od_keys. apply length_map. }
  split; [done|]. lia.
Qed.

Lemma selected_bound_witness :
  score_sentences (R:=Q) plain_lib ["fox"; "dog"] ["A fox."; "A dog."; "A fox."]
  = Ok [("A fox.", (1 # 2)%Q); ("A dog.", (1 # 2)%Q)]
  ∧ length (selected_sentences [("A fox.", (1 # 2)%Q); ("A dog.", (1 # 2)%Q)] 1)
    = 1 `min` length [("A fox.", (1 # 2)%Q); ("A dog.", (1 # 2)%Q)]
  ∧ length (selected_sentences [("A fox.", (1 # 2)%Q); ("A dog.", (1 # 2)%Q)] 1) ≤ 1.
Proof.
  split; [vm_compute; reflexivity|].
  apply (selected_bound (R:=Q) plain_lib ["fox"; "dog"] ["A fox."; "A dog."; "A fox."]).
  vm_compute; reflexivity.
Defined.

Section Order.
Context `{Number R}.
(** The comparison of the numbers is a strict order whose complement is
    transitive, as [<] on floats that are not NaN is. *)
Hypothesis ltb_asym : ∀ a b : R, ltb a b = true → ltb b a = false.
Hypothesis geb_trans : ∀ a b c : R, ltb a b = false → ltb b c = false → ltb a c = false.

Lemma insert_desc_sorted (x : string * R) (l : list (string * R)) :
  StronglySorted (λ p q, ltb (snd p) (snd q) = false) l →
  StronglySorted (λ p q, ltb (snd p) (snd q) = false) (insert_desc x l).
Proof.
  induction 1 as [|y l Hsorted IH Hy]; simpl.
  - repeat constructor.
  - destruct (ltb (snd x) (snd y)) eqn:Hxy.
    + constructor; [done|]. rewrite insert_desc_perm. constructor; [|done].
      by apply ltb_asym.
    + constructor; [by constructor|]. constructor; [done|].
      eapply Forall_impl; [exact Hy|]. intros z Hz. simpl in *. by eapply geb_trans.
Qed.

Lemma sort_desc_sorted (d : list (string * R)) :
  StronglySorted (λ p q, ltb (snd p) (snd q) = false) (foldr insert_desc [] d).
Proof.
  induction d as [|x d IH]; simpl; [constructor|]. by apply insert_desc_sorted.
Qed.

Lemma sorted_split {A} (rel : A → A → Prop) (l1 l2 : list A) :
  StronglySorted rel (l1 ++ l2) → ∀ p q, p ∈ l1 → q ∈ l2 → rel p q.
Proof.
  induction l1 as [|x l1 IH]; simpl; intros Hsorted p q Hp Hq.
  - by apply elem_of_nil in Hp.
  - apply StronglySorted_inv in Hsorted as [Hsorted Hx].
    apply elem_of_cons in Hp as [->|Hp]; [|by eapply IH].
    rewrite Forall_forall in Hx. apply Hx, elem_of_app. by right.
Qed.

(** X9. The selection takes the best: no sentence that is left out has a
    score above the score of a sentence among the top [n]. *)
Theorem top_sentences_dominate (lib : Libraries)
    (fwords fsentences : list string) (scores : list (string * R)) (n : nat)
    (chosen other : string) (v_chosen v_other : R) :
  score_sentences lib fwords fsentences = Ok scores →
  chosen ∈ top_sentences scores n →
  other ∉ top_sentences scores n →
  od_get scores chosen = Some v_chosen →
  od_get scores other = Some v_other →
  ltb v_chosen v_other = false.
Proof.
  intros Hrun Hchosen Hother Hvc Hvo. unfold score_sentences in Hrun.
  pose proof (od_fill_keys _ _ _ _ Hrun) as [_ Hnodup].
  specialize (Hnodup ltac:(constructor)).
  unfold top_sentences, sorted_desc, od_keys in *.
  set (sorted := foldr insert_desc [] scores) in *.
  assert (sorted ≡ₚ scores) as Hperm.
  { subst sorted. clear. induction scores as [|x d IH]; simpl; [done|].
    by rewrite insert_desc_perm, IH. }
  rewrite <- fmap_take in Hchosen, Hother.
  apply list_elem_of_fmap in Hchosen as ([k v] & -> & Hin). simpl in *.
  assert (v = v_chosen) as ->.
  { apply (od_elem_get scores k v) in Hnodup.
    - congruence.
    - rewrite <- Hperm. by eapply subseteq_take. }
  apply od_get_elem in Hvo. rewrite <- Hperm, <- (take_drop n sorted) in Hvo.
  apply elem_of_app in Hvo as [Hvo|Hvo].
  - destruct Hother. apply list_elem_of_fmap. by exists (other, v_other).
  - assert (StronglySorted (λ p q, ltb (snd p) (snd q) = false)
              (take n sorted ++ drop n sorted)) as Hsorted
      by (rewrite take_drop; apply sort_desc_sorted).
    exact (sorted_split _ _ _ Hsorted _ _ Hin Hvo).
Qed.

End Order.

Lemma Q_ltb_asym (a b : Q) : ltb a b = true → ltb b a = false.
Proof.
  simpl. rewrite negb_true_iff, negb_false_iff.
  intros Hab. apply Qle_bool_iff. apply Qlt_le_weak, Qnot_le_lt.
  intros Hle%Qle_bool_iff. congruence.
Qed.

Lemma Q_geb_trans (a b c : Q) : ltb a b = false → ltb b c = false → ltb a c = false.
Proof.
  simpl. rewrite !negb_false_iff, !Qle_bool_iff. intros Hba Hcb. by eapply Qle_trans.
Qed.

Lemma top_sentences_dominate_witness :
  score_sentences (R:=Q) plain_lib ["fox"; "fox"; "dog"] ["A dog."; "A fox."]
  = Ok [("A dog.", (1 # 3)%Q); ("A fox.", (2 # 3)%Q)]
  ∧ "A fox." ∈ top_sentences [("A dog.", (1 # 3)%Q); ("A fox.", (2 # 3)%Q)] 1
  ∧ ("A dog." ∉ top_sentences [("A dog.", (1 # 3)%Q); ("A fox.", (2 # 3)%Q)] 1)
  ∧ ltb (2 # 3)%Q (1 # 3)%Q = false.
Proof.
  assert ("A fox." ∈ top_sentences [("A dog.", (1 # 3)%Q); ("A fox.", (2 # 3)%Q)] 1) as Hin
    by (vm_compute; by left).
  assert ("A dog." ∉ top_sentences [("A dog.", (1 # 3)%Q); ("A fox.", (2 # 3)%Q)] 1) as Hout
    by (vm_compute; intros [= ]%list_elem_of_singleton).
  split; [vm_compute; reflexivity|]. split; [exact Hin|]. split; [exact Hout|].
  apply (top_sentences_dominate Q_ltb_asym Q_geb_trans plain_lib ["fox"; "fox"; "dog"]
           ["A dog."; "A fox."] [("A dog.", (1 # 3)%Q); ("A fox.", (2 # 3)%Q)] 1
           "A fox." "A dog." (2 # 3)%Q (1 # 3)%Q).
  - vm_compute; reflexivity.
  - exact Hin.
  - exact Hout.
  - reflexivity.
  - reflexivity.
Defined.

(** ** [summarize] as a whole *)

Lemma mapM_length {A B} (f : A → result B) (l : list A) (r : list B) :
  mapM f l = Ok r → length r = length l.
Proof.
  revert r. induction l as [|x l IH]; intros r; simpl.
  - by intros [= <-].
  - intros (y & _ & Hrest)%bind_Ok. apply bind_Ok in Hrest as (ys & Hys & [= <-]).
    simpl. f_equal. by apply IH.
Qed.

(** X10. The second half of [summarize]: the model is given chunks of at
    most 1024 characters that join to the selected text, one reply is taken
    per chunk, and the summary left on the object is the corrected join of
    the replies; the chunk size on the object is 1024 afterwards and nothing
    else changes. *)
Theorem condense_spec `{Number R} (lib : Libraries) (self self' : PDFSummarizer)
    (scores : list (string * R)) :
  condense lib self scores = Ok self' →
  ∃ raw_summary_chunks futures,
    Str.cat raw_summary_chunks = selected_text scores NUM_SENTENCES
    ∧ Forall (λ chunk, (Str.len chunk ≤ 1024)%Z) raw_summary_chunks
    ∧ mapM (_summarize_chunk lib) raw_summary_chunks = Ok futures
    ∧ length futures = length raw_summary_chunks
    ∧ corrected lib (Str.cat futures) = Ok (summary self')
    ∧ self' = set_summary (summary self') (set_CHUNK_SIZE 1024 self).
Proof.
  unfold condense. intros Hrun.
  change (Z.of_nat (CHUNK_SIZE (set_CHUNK_SIZE 1024 self))) with 1024%Z in Hrun.
  rewrite split_text_positive in Hrun by lia.
  apply bind_Ok in Hrun as (raw & [= <-] & Hrun).
  apply bind_Ok in Hrun as (futures & Hfutures & Hrun).
  unfold _correct_summary in Hrun.
  apply bind_Ok in Hrun as (s & Hs & [= <-]). simpl in Hs.
  eexists _, futures. split; [|split; [|split; [exact Hfutures|]]].
  - replace (Z.to_nat (Str.len (selected_text scores NUM_SENTENCES)))
      with (Z.to_nat (Str.len (selected_text scores NUM_SENTENCES) - 0)) by (f_equal; lia).
    rewrite range_up_chunks; [done|lia|lia|]. unfold Str.len. lia.
  - apply Forall_map.
    eapply Forall_impl; [apply (range_up_bounds _ 0); lia|].
    intros i Hi. simpl in *. rewrite StrFacts.slice_inside by lia.
    unfold Str.len. rewrite StrFacts.length_take. lia.
  - split; [by eapply mapM_length|]. split; [exact Hs|]. reflexivity.
Qed.

Lemma condense_spec_witness :
  (∃ self', condense (R:=Q) dict_lib small_self
              [("The quickbrown dog.", (1 # 2)%Q)] = Ok self')
  ∧ ∃ self' raw_summary_chunks futures,
      Str.cat raw_summary_chunks
      = selected_text [("The quickbrown dog.", (1 # 2)%Q)] NUM_SENTENCES
      ∧ Forall (λ chunk, (Str.len chunk ≤ 1024)%Z) raw_summary_chunks
      ∧ mapM (_summarize_chunk dict_lib) raw_summary_chunks = Ok futures
      ∧ length futures = length raw_summary_chunks
      ∧ corrected dict_lib (Str.cat futures) = Ok (summary self')
      ∧ self' = set_summary (summary self') (set_CHUNK_SIZE 1024 small_self).
Proof.
  assert (∃ self', condense (R:=Q) dict_lib small_self
                     [("The quickbrown dog.", (1 # 2)%Q)] = Ok self') as [self' Hrun]
    by (eexists; vm_compute; reflexivity).
  split; [by exists self'|]. exists self'.
  exact (condense_spec dict_lib small_self self' _ Hrun).
Defined.

(** X11. A [summarize] that returns changes neither the text, the chunks nor
    the stop words of the object, and leaves its chunk size at 1024: the
    chunks are those that [__init__] cut, whatever the chunk size is by
    now. *)
Theorem summarize_frame `{Number R} (lib : Libraries) (self self' : PDFSummarizer) :
  summarize lib self = Ok self' →
  text self' = text self ∧ chunks self' = chunks self
  ∧ stop_words self' = stop_words self ∧ CHUNK_SIZE self' = 1024.
Proof.
  unfold summarize. intros ([scored scores] & Hscored & Hcondense)%bind_Ok.
  simpl in Hcondense.
  unfold tokenize_and_score in Hscored.
  apply bind_Ok in Hscored as (ss & _ & Hscored).
  apply bind_Ok in Hscored as (ws & _ & Hscored).
  apply bind_Ok in Hscored as (fss & _ & Hscored).
  apply bind_Ok in Hscored as (fws & _ & Hscored).
  apply bind_Ok in Hscored as (sc & _ & [= <- <-]).
  unfold condense in Hcondense.
  apply bind_Ok in Hcondense as (raw & _ & Hcondense).
  apply bind_Ok in Hcondense as (futures & _ & Hcondense).
  unfold _correct_summary in Hcondense.
  apply bind_Ok in Hcondense as (s & _ & [= <-]). done.
Qed.

Lemma summarize_frame_witness :
  (∃ self', summarize (R:=Q) dict_lib
              (set_CHUNK_SIZE 4096 (set_summary "" small_self)) = Ok self')
  ∧ ∃ self', text self' = text (set_CHUNK_SIZE 4096 (set_summary "" small_self))
      ∧ chunks self' = chunks (set_CHUNK_SIZE 4096 (set_summary "" small_self))
      ∧ stop_words self' = stop_words (set_CHUNK_SIZE 4096 (set_summary "" small_self))
      ∧ CHUNK_SIZE self' = 1024.
Proof.
  assert (∃ self', summarize (R:=Q) dict_lib
                     (set_CHUNK_SIZE 4096 (set_summary "" small_self)) = Ok self')
    as [self' Hrun] by (eexists; vm_compute; reflexivity).
  split; [by exists self'|]. exists self'.
  exact (summarize_frame dict_lib _ self' Hrun).
Defined.

(** ** The other two summarizers *)

Lemma foldM_append (generate : string → result string) (chunks pieces : list string)
    (acc : string) :
  mapM generate chunks = Ok pieces →
  foldM (λ summary chunk, piece ← generate chunk; Ok (summary +:+ piece)) chunks acc
  = Ok (acc +:+ Str.cat pieces).
Proof.
  revert pieces acc. induction chunks as [|c chunks IH]; intros pieces acc; simpl.
  - intros [= <-]. simpl. f_equal. induction acc as [|a acc IHacc]; [done|].
    rewrite StrFacts.app_cons. by rewrite <- IHacc at 1.
  - intros (y & Hy & Hrest)%bind_Ok. apply bind_Ok in Hrest as (ys & Hys & [= <-]).
    rewrite Hy. simpl. rewrite (IH ys) by done. simpl. f_equal.
    induction acc as [|a acc IHacc]; [done|].
    rewrite !StrFacts.app_cons. by rewrite IHacc.
Qed.

Lemma foldM_append_inv (generate : string → result string) (chunks : list string)
    (acc out : string) :
  foldM (λ summary chunk, piece ← generate chunk; Ok (summary +:+ piece)) chunks acc
  = Ok out →
  ∃ pieces, mapM generate chunks = Ok pieces.
Proof.
  revert acc. induction chunks as [|c chunks IH]; intros acc; simpl.
  - intros _. by eexists.
  - intros (acc' & Hstep & Hrest)%bind_Ok.
    destruct (generate c) as [y|e]; simpl in *; [|done].
    destruct (IH _ Hrest) as [ys ->]. by eexists.
Qed.

(** X12. The BigBird-Pegasus summarizer: a [summarize] that returns leaves
    the chunks of the text (at most 4096 characters each, joining to the
    text) and, as the summary, the join of the model's replies to the
    chunks in order. The summary is started afresh on each call: a second
    [summarize] leaves the object as it is. *)
Theorem pegasus_summarize_spec (generate : string → result string)
    (self self' : Pegasus.PDFSummarizer) :
  Pegasus.summarize generate self = Ok self' →
  Pegasus.text self' = Pegasus.text self
  ∧ (∃ chunks pieces,
       Pegasus.chunks self' = Some chunks
       ∧ Str.cat chunks = Pegasus.text self
       ∧ Forall (λ chunk, (Str.len chunk ≤ 4096)%Z) chunks
       ∧ mapM generate chunks = Ok pieces
       ∧ Pegasus.suma self' = Ok (Str.cat pieces))
  ∧ Pegasus.summarize generate self' = Ok self'.
Proof.
  unfold Pegasus.summarize, Pegasus._split_text, Pegasus.CHUNK_SIZE.
  intros Hrun. rewrite split_text_positive in Hrun by lia.
  set (cs := map _ _) in Hrun.
  change (foldM (λ summary chunk, piece ← generate chunk; Ok (summary +:+ piece)) cs ""
          ≫= (λ summary, Ok {| Pegasus.text := Pegasus.text self; Pegasus.chunks := Some cs;
                                Pegasus.summary := Some summary |}) = Ok self') in Hrun.
  apply bind_Ok in Hrun as (out & Hout & [= <-]).
  destruct (foldM_append_inv _ _ _ _ Hout) as [pieces Hpieces].
  rewrite (foldM_append _ _ pieces) in Hout by done. injection Hout as <-.
  cbn [Pegasus.text Pegasus.chunks Pegasus.summary Pegasus.suma].
  split; [done|]. split.
  - exists cs, pieces. split; [done|]. split; [|split; [|split; [exact Hpieces|done]]].
    + subst cs.
      replace (Z.to_nat (Str.len (Pegasus.text self)))
        with (Z.to_nat (Str.len (Pegasus.text self) - 0)) by (f_equal; lia).
      rewrite range_up_chunks; [done|lia|lia|]. unfold Str.len. lia.
    + subst cs. apply Forall_map.
      eapply Forall_impl; [apply (range_up_bounds _ 0); lia|].
      intros i Hi. simpl in *. rewrite StrFacts.slice_inside by lia.
      unfold Str.len. rewrite StrFacts.length_take. lia.
  - rewrite split_text_positive by lia. fold cs.
    change (foldM (λ summary chunk, piece ← generate chunk; Ok (summary +:+ piece)) cs ""
            ≫= (λ summary, Ok {| Pegasus.text := Pegasus.text self;
                                  Pegasus.chunks := Some cs;
                                  Pegasus.summary := Some summary |})
            = Ok {| Pegasus.text := Pegasus.text self; Pegasus.chunks := Some cs;
                    Pegasus.summary := Some ("" +:+ Str.cat pieces) |}).
    by rewrite (foldM_append _ _ pieces) by done.
Qed.

Lemma pegasus_summarize_spec_witness :
  Pegasus.summarize (λ chunk, Ok (Str.take 3 chunk))
    {| Pegasus.text := "abcdef"; Pegasus.chunks := None; Pegasus.summary := None |}
  = Ok {| Pegasus.text := "abcdef"; Pegasus.chunks := Some ["abcdef"];
          Pegasus.summary := Some "abc" |}
  ∧ Pegasus.suma {| Pegasus.text := "abcdef"; Pegasus.chunks := None;
                    Pegasus.summary := None |}
    = Err (Raised "AttributeError: 'PDFSummarizer' object has no attribute 'summary'")
  ∧ Pegasus.summarize (λ chunk, Ok (Str.take 3 chunk))
      {| Pegasus.text := "abcdef"; Pegasus.chunks := Some ["abcdef"];
         Pegasus.summary := Some "abc" |}
    = Ok {| Pegasus.text := "abcdef"; Pegasus.chunks := Some ["abcdef"];
            Pegasus.summary := Some "abc" |}.
Proof.
  assert (Pegasus.summarize (λ chunk, Ok (Str.take 3 chunk))
            {| Pegasus.text := "abcdef"; Pegasus.chunks := None; Pegasus.summary := None |}
          = Ok {| Pegasus.text := "abcdef"; Pegasus.chunks := Some ["abcdef"];
                  Pegasus.summary := Some "abc" |}) as Hrun by (vm_compute; reflexivity).
  split; [exact Hrun|]. split; [reflexivity|].
  exact (proj2 (proj2 (pegasus_summarize_spec _ _ _ Hrun))).
Defined.

Lemma foldl_append (picked : list string) (acc : string) :
  foldl (λ summary sentence, summary +:+ sentence) acc picked = acc +:+ Str.cat picked.
Proof.
  revert acc. induction picked as [|x picked IH]; intros acc; simpl.
  - induction acc as [|a acc IHacc]; [done|].
    rewrite StrFacts.app_cons. by rewrite <- IHacc.
  - rewrite IH. induction acc as [|a acc IHacc]; [done|].
    rewrite !StrFacts.app_cons. by rewrite IHacc.
Qed.

(** X13. The LSA summarizer appends to the summary that the object holds and
    never clears it: after one [summarize] the summary is the old one
    followed by the picked sentences, and a second [summarize] on the same
    object holds the picked sentences twice. *)
Theorem sumy_summarize_accumulates (lsa : string → nat → result (list string))
    (self once twice : Sumy.PDFSummarizer) :
  Sumy.summarize lsa self = Ok once →
  Sumy.summarize lsa once = Ok twice →
  ∃ picked,
    lsa (Sumy.text self) 20 = Ok picked
    ∧ Sumy.suma once = Sumy.summary self +:+ Str.cat picked
    ∧ Sumy.suma twice = (Sumy.summary self +:+ Str.cat picked) +:+ Str.cat picked.
Proof.
  unfold Sumy.summarize, Sumy.NUM_SENTENCES, Sumy.suma.
  intros (picked & Hpicked & [= <-])%bind_Ok. simpl. rewrite Hpicked. simpl.
  intros [= <-]. simpl. exists picked. by rewrite !foldl_append.
Qed.

Lemma sumy_summarize_accumulates_witness :
  Sumy.summarize first_and_mark {| Sumy.text := "It works."; Sumy.summary := "" |}
  = Ok {| Sumy.text := "It works."; Sumy.summary := "It works.!" |}
  ∧ Sumy.summarize first_and_mark {| Sumy.text := "It works."; Sumy.summary := "It works.!" |}
    = Ok {| Sumy.text := "It works."; Sumy.summary := "It works.!It works.!" |}
  ∧ ∃ picked,
      first_and_mark "It works." 20 = Ok picked
      ∧ Sumy.suma {| Sumy.text := "It works."; Sumy.summary := "It works.!" |}
        = "" +:+ Str.cat picked
      ∧ Sumy.suma {| Sumy.text := "It works."; Sumy.summary := "It works.!It works.!" |}
        = ("" +:+ Str.cat picked) +:+ Str.cat picked.
Proof.
  split; [reflexivity|]. split; [reflexivity|].
  apply (sumy_summarize_accumulates first_and_mark
           {| Sumy.text := "It works."; Sumy.summary := "" |}
           {| Sumy.text := "It works."; Sumy.summary := "It works.!" |}
           {| Sumy.text := "It works."; Sumy.summary := "It works.!It works.!" |});
    reflexivity.
Defined.

(** ** The loader *)

Lemma contains_cons (needle : string) (c : ascii) (hay : string) :
  Str.contains needle (String c hay)
  = if String.prefix needle (String c hay) then true else Str.contains needle hay.
Proof. reflexivity. Qed.

Lemma contains_hyphen_cons (c : ascii) (s : string) :
  Str.contains "-" (String c s) = if Ascii.eqb c "-" then true else Str.contains "-" s.
Proof.
  rewrite contains_cons.
  change (String.prefix "-" (String c s))
    with (if ascii_dec "-" c then String.prefix "" s else false).
  destruct (Ascii.eqb_spec c "-") as [->|Hne].
  - destruct (ascii_dec "-" "-") as [_|Hne]; [by destruct s|done].
  - destruct (ascii_dec "-" c) as [<-|_]; done.
Qed.

Lemma drop_hyphens_clean (s : string) : Str.contains "-" (Converter.drop_hyphens s) = false.
Proof.
  induction s as [|c s IH]; simpl; [done|].
  destruct (Ascii.eqb c "-") eqn:Hc; [done|].
  by rewrite contains_hyphen_cons, Hc.
Qed.

(** X14. Whatever the two regular expressions do, the text that
    [_remove_noise] returns holds no hyphen. *)
Theorem remove_noise_no_hyphen (re : Converter.Patterns) (text : string) :
  ¬ Str.occurs "-" (Converter._remove_noise re text).
Proof.
  unfold Converter._remove_noise. rewrite <- contains_spec, drop_hyphens_clean. done.
Qed.

Lemma rfind_from_none (pos : nat) (last : Z) (needle hay : string) :
  Str.contains needle hay = false → Converter.rfind_from pos last needle hay = last.
Proof.
  revert pos. induction hay as [|c hay IH]; intros pos.
  - change (Str.contains needle "") with (if String.prefix needle "" then true else false).
    change (Converter.rfind_from pos last needle "")
      with (if String.prefix needle "" then Z.of_nat pos else last).
    by destruct (String.prefix needle "").
  - rewrite contains_cons.
    change (Converter.rfind_from pos last needle (String c hay))
      with (Converter.rfind_from (S pos)
              (if String.prefix needle (String c hay) then Z.of_nat pos else last)
              needle hay).
    destruct (String.prefix needle (String c hay)); [done|]. apply IH.
Qed.

(** The last occurrence: [needle] starts [hay], and does not occur later. *)
Lemma rfind_from_last (pos : nat) (last : Z) (needle before hay : string) :
  hay ≠ "" →
  String.prefix needle hay = true →
  Str.contains needle (Str.drop 1 hay) = false →
  Converter.rfind_from pos last needle (before +:+ hay)
  = Z.of_nat (pos + String.length before).
Proof.
  intros Hne Hprefix Hlater. revert pos last.
  induction before as [|a before IH]; intros pos last.
  - destruct hay as [|c hay]; [done|].
    change (Converter.rfind_from pos last needle ("" +:+ String c hay))
      with (Converter.rfind_from (S pos)
              (if String.prefix needle (String c hay) then Z.of_nat pos else last)
              needle hay).
    rewrite Hprefix. rewrite rfind_from_none by done. simpl. lia.
  - rewrite StrFacts.app_cons.
    change (Converter.rfind_from pos last needle (String a (before +:+ hay)))
      with (Converter.rfind_from (S pos)
              (if String.prefix needle (String a (before +:+ hay)) then Z.of_nat pos
               else last)
              needle (before +:+ hay)).
    rewrite IH. simpl. lia.
Qed.

Lemma lower_app (a b : string) : Str.lower (a +:+ b) = Str.lower a +:+ Str.lower b.
Proof.
  induction a as [|c a IH]; [done|].
  rewrite StrFacts.app_cons. simpl. by rewrite StrFacts.app_cons, IH.
Qed.

Lemma take_app_length (a b : string) : Str.take (String.length a) (a +:+ b) = a.
Proof.
  induction a as [|c a IH]; [by destruct b|].
  rewrite StrFacts.app_cons. simpl. by rewrite IH.
Qed.

Lemma app_length (a b : string) :
  String.length (a +:+ b) = String.length a + String.length b.
Proof. induction a as [|c a IH]; [done|]. rewrite StrFacts.app_cons. simpl. by rewrite IH. Qed.

Lemma lower_ne (a : string) : a ≠ "" → Str.lower a ≠ "".
Proof. by destruct a. Qed.

(** X15. The cut is made at the index that the last "references", in any
    case of letters, has in the lower-cased text, when that one does not
    start the text: what comes back are the first characters of the text,
    as many as the lower-cased text before that occurrence has. Where
    lower-casing keeps the length of the text before the occurrence, that
    is exactly the text before it. *)
Theorem cut_references_last (head tail : string) :
  head ≠ "" →
  String.prefix "references" (Str.lower tail) = true →
  ¬ Str.occurs "references" (Str.drop 1 (Str.lower tail)) →
  Converter.cut_references (head +:+ tail)
  = Str.take (String.length (Str.lower head)) (head +:+ tail)
  ∧ (String.length (Str.lower head) = String.length head →
     Converter.cut_references (head +:+ tail) = head).
Proof.
  intros Hhead Hprefix Hlater. rewrite <- contains_spec in Hlater.
  apply not_true_is_false in Hlater.
  assert (Str.lower tail ≠ "") as Htail by (by destruct (Str.lower tail)).
  assert (Converter.rfind (Str.lower (head +:+ tail)) "references"
          = Z.of_nat (String.length (Str.lower head))) as Hfind.
  { unfold Converter.rfind. rewrite lower_app.
    by rewrite (rfind_from_last 0 (-1) "references" (Str.lower head) (Str.lower tail))
      by done. }
  assert (0 < String.length (Str.lower head))
    by (pose proof (lower_ne head Hhead); destruct (Str.lower head); [done|simpl; lia]).
  assert (Converter.cut_references (head +:+ tail)
          = Str.take (String.length (Str.lower head)) (head +:+ tail)) as Hcut.
  { unfold Converter.cut_references, Converter.noise_index. rewrite Hfind.
    destruct (Z.eqb_spec (Z.of_nat (String.length (Str.lower head))) 0); [lia|].
    destruct (Z.eqb_spec (Z.of_nat (String.length (Str.lower head))) (-1)); [lia|]. simpl.
    rewrite (StrFacts.slice_inside _ 0 (Z.of_nat (String.length (Str.lower head)))) by lia.
    simpl. by rewrite Nat2Z.id. }
  split; [done|]. intros Hlen. rewrite Hcut, Hlen. apply take_app_length.
Qed.

Lemma cut_references_last_witness :
  "Results. " ≠ ""
  ∧ String.prefix "references" (Str.lower "REFERENCES [1] A. B.") = true
  ∧ ¬ Str.occurs "references" (Str.drop 1 (Str.lower "REFERENCES [1] A. B."))
  ∧ String.length (Str.lower "Results. ") = String.length "Results. "
  ∧ Converter.cut_references ("Results. " +:+ "REFERENCES [1] A. B.")
    = Str.take (String.length (Str.lower "Results. ")) ("Results. " +:+ "REFERENCES [1] A. B.")
  ∧ Converter.cut_references ("Results. " +:+ "REFERENCES [1] A. B.") = "Results. ".
Proof.
  assert (¬ Str.occurs "references" (Str.drop 1 (Str.lower "REFERENCES [1] A. B.")))
    as Hlater by (rewrite <- contains_spec; vm_compute; discriminate).
  split; [discriminate|]. split; [reflexivity|]. split; [exact Hlater|].
  split; [reflexivity|].
  destruct (cut_references_last "Results. " "REFERENCES [1] A. B.") as [Hcut Hhead];
    [discriminate|reflexivity|exact Hlater|].
  split; [exact Hcut|]. apply Hhead. reflexivity.
Defined.

(** X16. "bibliography" alone never cuts: when "references" does not occur in
    the text, [rfind] gives -1, which [or] takes as it is, and the text
    comes back whole, with or without a bibliography. *)
Theorem cut_references_none (text : string) :
  ¬ Str.occurs "references" (Str.lower text) →
  Converter.cut_references text = text.
Proof.
  intros Hnone. rewrite <- contains_spec in Hnone. apply not_true_is_false in Hnone.
  unfold Converter.cut_references, Converter.noise_index, Converter.rfind.
  by rewrite rfind_from_none by done.
Qed.

Lemma cut_references_none_witness :
  ¬ Str.occurs "references" (Str.lower "Results. Bibliography [1] A. B.")
  ∧ Converter.cut_references "Results. Bibliography [1] A. B."
    = "Results. Bibliography [1] A. B.".
Proof.
  assert (¬ Str.occurs "references" (Str.lower "Results. Bibliography [1] A. B."))
    as Hnone by (rewrite <- contains_spec; vm_compute; discriminate).
  split; [exact Hnone|]. by apply (cut_references_none "Results. Bibliography [1] A. B.").
Defined.

(** X17. A text that starts with its only "references" is not emptied: the
    index 0 is dropped by [or], and without a "bibliography" the text comes
    back whole. *)
Theorem cut_references_at_start (text : string) :
  String.prefix "references" (Str.lower text) = true →
  ¬ Str.occurs "references" (Str.drop 1 (Str.lower text)) →
  ¬ Str.occurs "bibliography" (Str.lower text) →
  Converter.cut_references text = text.
Proof.
  intros Hprefix Hlater Hbib. rewrite <- contains_spec in Hlater, Hbib.
  apply not_true_is_false in Hlater, Hbib.
  assert (Str.lower text ≠ "") as Htext by (by destruct (Str.lower text)).
  unfold Converter.cut_references, Converter.noise_index.
  replace (Converter.rfind (Str.lower text) "references") with 0%Z.
  - simpl. unfold Converter.rfind. by rewrite rfind_from_none by done.
  - unfold Converter.rfind.
    pose proof (rfind_from_last 0 (-1) "references" "" (Str.lower text)
                  Htext Hprefix Hlater) as Hfind.
    change ("" +:+ Str.lower text) with (Str.lower text) in Hfind. by rewrite Hfind.
Qed.

Lemma cut_references_at_start_witness :
  String.prefix "references" (Str.lower "References: see the last page.") = true
  ∧ ¬ Str.occurs "references" (Str.drop 1 (Str.lower "References: see the last page."))
  ∧ ¬ Str.occurs "bibliography" (Str.lower "References: see the last page.")
  ∧ Converter.cut_references "References: see the last page."
    = "References: see the last page.".
Proof.
  assert (¬ Str.occurs "references" (Str.drop 1 (Str.lower "References: see the last page.")))
    as Hlater by (rewrite <- contains_spec; vm_compute; discriminate).
  assert (¬ Str.occurs "bibliography" (Str.lower "References: see the last page."))
    as Hbib by (rewrite <- contains_spec; vm_compute; discriminate).
  split; [reflexivity|]. split; [exact Hlater|]. split; [exact Hbib|].
  apply (cut_references_at_start "References: see the last page.");
    [reflexivity|exact Hlater|exact Hbib].
Defined.

Lemma validate_file_Ok (fs : gmap string string) (name validated : string) :
  Converter._validate_file fs name = Ok validated
  ↔ validated = name
    ∧ ∃ content, fs !! name = Some content ∧ Str.take 4 content = "%PDF".
Proof.
  unfold Converter._validate_file. destruct (fs !! name) as [content|].
  - destruct (String.eqb_spec (Str.take 4 content) "%PDF") as [Hpdf|Hpdf].
    + split.
      * intros [= <-]. split; [done|]. by exists content.
      * by intros [-> _].
    + split; [done|]. intros [_ (content' & [= <-] & Hp)]. done.
  - split; [done|]. intros [_ (content' & Hc & _)]. done.
Qed.

Lemma converter_init_iff (fs : gmap string string) (pdf : Converter.Reader)
    (re : Converter.Patterns) (name : string) (loaded : Converter.PDFToTextConverter) :
  Converter.init fs pdf re name = Ok loaded
  ↔ ∃ content pages,
      fs !! name = Some content
      ∧ Str.take 4 content = "%PDF"
      ∧ pdf content = Ok pages
      ∧ loaded = {| Converter.filename := name;
                    Converter.text := Converter._remove_noise re (Str.join " " pages) |}.
Proof.
  unfold Converter.init, Converter._read_file. split.
  - intros (validated & Hvalid & Hrun)%bind_Ok.
    apply bind_Ok in Hrun as (text & Hread & [= <-]).
    apply bind_Ok in Hread as (validated' & _ & Hread).
    apply bind_Ok in Hread as (pages & Hpages & [= <-]).
    apply validate_file_Ok in Hvalid as [-> (content & Hfile & Hpdf)].
    rewrite Hfile in Hpages. by exists content, pages.
  - intros (content & pages & Hfile & Hpdf & Hpages & ->).
    assert (Converter._validate_file fs name = Ok name) as Hvalid
      by (apply validate_file_Ok; split; [done|by exists content]).
    rewrite !Hvalid, Hfile, Hpages. done.
Qed.

(** X18. The loader accepts a path exactly when a file is there, its first
    four bytes are "%PDF" and the reader gives its pages; the object then
    holds the path, and as text the pages joined with blanks and cleaned by
    [_remove_noise]. *)
Theorem converter_init_spec (fs : gmap string string) (pdf : Converter.Reader)
    (re : Converter.Patterns) (name : string) (loaded : Converter.PDFToTextConverter) :
  Converter.init fs pdf re name = Ok loaded
  ↔ ∃ content pages,
      fs !! name = Some content
      ∧ Str.take 4 content = "%PDF"
      ∧ pdf content = Ok pages
      ∧ loaded = {| Converter.filename := name;
                    Converter.text := Converter._remove_noise re (Str.join " " pages) |}.
Proof. apply converter_init_iff. Qed.

(** X19. A path with no file, or with a file that does not start with
    "%PDF", is refused before the reader is asked: the error is the same
    whatever the reader and the patterns are. *)
Theorem converter_init_refuses (fs : gmap string string) (name : string) :
  (∀ content, fs !! name = Some content → Str.take 4 content ≠ "%PDF") →
  ∃ e, ∀ pdf re, Converter.init fs pdf re name = Err e.
Proof.
  intros Hbad. unfold Converter.init.
  destruct (Converter._validate_file fs name) as [validated|e] eqn:Hvalid.
  - apply validate_file_Ok in Hvalid as [_ (content & Hfile & Hpdf)].
    by destruct (Hbad content).
  - by exists e.
Qed.

Lemma converter_init_refuses_witness :
  (∀ content, ({["notes.txt" := "hello"]} : gmap string string) !! "notes.txt" = Some content →
              Str.take 4 content ≠ "%PDF")
  ∧ ∃ e, ∀ pdf re, Converter.init {["notes.txt" := "hello"]} pdf re "notes.txt" = Err e.
Proof.
  assert (∀ content,
            ({["notes.txt" := "hello"]} : gmap string string) !! "notes.txt" = Some content →
            Str.take 4 content ≠ "%PDF") as Hbad.
  { intros content. rewrite lookup_singleton_eq. intros [= <-]. discriminate. }
  split; [exact Hbad|].
  exact (converter_init_refuses {["notes.txt" := "hello"]} "notes.txt" Hbad).
Defined.

(** ** [_sanitize] *)

Lemma strip_false_cons (c : ascii) (s : string) :
  strip_urls_from false (String c s)
  = if starts_url (String c s) then strip_urls_from true s
    else String c (strip_urls_from false s).
Proof. reflexivity. Qed.

Lemma strip_true_cons (c : ascii) (s : string) :
  strip_urls_from true (String c s)
  = if Str.is_space c then String c (strip_urls_from false s)
    else strip_urls_from true s.
Proof. reflexivity. Qed.

Lemma starts_url_inv (s : string) :
  starts_url s = true →
  ∃ x rest, s = String "h" (String "t" (String "t" (String "p" (String x rest))))
            ∧ Str.is_space x = false.
Proof.
  unfold starts_url. intros [Hprefix Hnext]%andb_true_iff.
  apply prefix_spec in Hprefix as [post ->].
  change (Str.drop 4 ("http" +:+ post)) with post in Hnext.
  destruct post as [|x rest]; [done|]. exists x, rest. split; [done|].
  by apply negb_true_iff.
Qed.

Lemma starts_url_intro (x : ascii) (rest : string) :
  Str.is_space x = false →
  starts_url (String "h" (String "t" (String "t" (String "p" (String x rest))))) = true.
Proof.
  intros Hx. unfold starts_url. apply andb_true_iff. split.
  - apply prefix_spec. by exists (String x rest).
  - change (Str.drop 4 (String "h" (String "t" (String "t" (String "p" (String x rest))))))
      with (String x rest). cbv beta iota. by rewrite Hx.
Qed.

Lemma strip_true_head (s : string) :
  strip_urls_from true s = ""
  ∨ ∃ d o, strip_urls_from true s = String d o ∧ Str.is_space d = true.
Proof.
  induction s as [|c s IH]; [by left|]. rewrite strip_true_cons.
  destruct (Str.is_space c) eqn:Hc; [|done]. right. by eexists _, _.
Qed.

(** A character that is not white space at the head of the output is the
    head of the input, kept. *)
Lemma strip_false_head (s : string) (d : ascii) (o : string) :
  strip_urls_from false s = String d o → Str.is_space d = false →
  ∃ s', s = String d s' ∧ o = strip_urls_from false s'.
Proof.
  destruct s as [|c s]; [done|]. rewrite strip_false_cons.
  destruct (starts_url (String c s)).
  - intros Hout Hd. destruct (strip_true_head s) as [Hnil|(d' & o' & Hhead & Hd')];
      congruence.
  - intros [= -> <-] _. by exists s.
Qed.

Lemma url_free_nil : url_free "".
Proof.
  intros [|a before] rest Hsplit; [|done].
  change ("" +:+ rest) with rest in Hsplit. by subst rest.
Qed.

Lemma url_free_cons (c : ascii) (t : string) :
  starts_url (String c t) = false → url_free t → url_free (String c t).
Proof.
  intros Hhead Htail [|a before] rest Hsplit.
  - change ("" +:+ rest) with rest in Hsplit. by subst rest.
  - rewrite StrFacts.app_cons in Hsplit. injection Hsplit as _ Hsplit.
    by eapply Htail.
Qed.

Lemma strip_urls_from_free (in_url : bool) (s : string) :
  url_free (strip_urls_from in_url s).
Proof.
  revert in_url. induction s as [|c s IH]; intros in_url; [by destruct in_url; apply url_free_nil|].
  destruct in_url.
  - rewrite strip_true_cons. destruct (Str.is_space c) eqn:Hc; [|apply IH].
    apply url_free_cons; [|apply IH].
    apply not_true_is_false. intros (x & rest & [= -> _] & _)%starts_url_inv.
    discriminate Hc.
  - rewrite strip_false_cons. destruct (starts_url (String c s)) eqn:Hs; [apply IH|].
    apply url_free_cons; [|apply IH].
    apply not_true_is_false. intros (x & rest & [= -> Hout] & Hx)%starts_url_inv.
    apply strip_false_head in Hout as (s1 & -> & Hout); [|done].
    symmetry in Hout. apply strip_false_head in Hout as (s2 & -> & Hout); [|done].
    symmetry in Hout. apply strip_false_head in Hout as (s3 & -> & Hout); [|done].
    symmetry in Hout. apply strip_false_head in Hout as (s4 & -> & Hout); [|done].
    rewrite starts_url_intro in Hs by done. discriminate Hs.
Qed.

(** X20. After the pass that removes [http\S+], the pattern has no match left:
    nowhere in the text does [http] stand before a character that is not
    white space. One pass is enough. *)
Theorem strip_urls_complete (text : string) : url_free (strip_urls text).
Proof. apply strip_urls_from_free. Qed.

Example sanitize_example :
  _sanitize "See http://a.b/c [12] and [x], as in [3]." = "See   and [x], as in ."
  ∧ strip_urls "ahttp://x b http c httphttp" = "a b http c ".
Proof. split; vm_compute; reflexivity. Qed.

Lemma contains_char_cons (a c : ascii) (s : string) :
  Str.contains (String a "") (String c s)
  = if Ascii.eqb c a then true else Str.contains (String a "") s.
Proof.
  rewrite contains_cons.
  change (String.prefix (String a "") (String c s))
    with (if ascii_dec a c then String.prefix "" s else false).
  destruct (Ascii.eqb_spec c a) as [->|Hne].
  - destruct (ascii_dec a a) as [_|Hne]; [by destruct s|done].
  - destruct (ascii_dec a c) as [<-|_]; done.
Qed.

Lemma strip_urls_clean (s : string) :
  Str.contains "http" s = false → strip_urls_from false s = s.
Proof.
  induction s as [|c s IH]; [done|]. rewrite contains_cons, strip_false_cons.
  destruct (String.prefix "http" (String c s)) eqn:Hprefix; [done|].
  intros Hrest. unfold starts_url. rewrite Hprefix. simpl. by rewrite IH.
Qed.

Lemma strip_citations_clean (s : string) :
  Str.contains "[" s = false → strip_citations_from 0 s = s.
Proof.
  induction s as [|c s IH]; [done|]. rewrite contains_char_cons.
  destruct (Ascii.eqb c "[") eqn:Hc; [done|]. intros Hrest.
  simpl. rewrite Hc. by rewrite IH.
Qed.

(** X21. [_sanitize] leaves a text alone in which neither "http" nor an
    opening bracket occurs. *)
Theorem sanitize_clean (text : string) :
  ¬ Str.occurs "http" text → ¬ Str.occurs "[" text → _sanitize text = text.
Proof.
  rewrite <- !contains_spec. intros Hurl%not_true_is_false Hcite%not_true_is_false.
  unfold _sanitize, strip_urls, strip_citations.
  rewrite strip_urls_clean by done. by apply strip_citations_clean.
Qed.

Lemma sanitize_clean_witness :
  ¬ Str.occurs "http" "Cats sleep (see above)."
  ∧ ¬ Str.occurs "[" "Cats sleep (see above)."
  ∧ _sanitize "Cats sleep (see above)." = "Cats sleep (see above).".
Proof.
  assert (¬ Str.occurs "http" "Cats sleep (see above).") as Hurl
    by (rewrite <- contains_spec; vm_compute; discriminate).
  assert (¬ Str.occurs "[" "Cats sleep (see above).") as Hcite
    by (rewrite <- contains_spec; vm_compute; discriminate).
  split; [exact Hurl|]. split; [exact Hcite|].
  exact (sanitize_clean "Cats sleep (see above)." Hurl Hcite).
Defined.

Lemma strip_urls_keeps_clean (in_url : bool) (s : string) :
  Str.contains "-" s = false → Str.contains "-" (strip_urls_from in_url s) = false.
Proof.
  revert in_url. induction s as [|c s IH]; intros in_url; [by destruct in_url|].
  rewrite contains_hyphen_cons. destruct (Ascii.eqb c "-") eqn:Hc; [done|]. intros Hrest.
  destruct in_url.
  - rewrite strip_true_cons. destruct (Str.is_space c); [|by apply IH].
    rewrite contains_hyphen_cons, Hc. by apply IH.
  - rewrite strip_false_cons. destruct (starts_url (String c s)); [by apply IH|].
    rewrite contains_hyphen_cons, Hc. by apply IH.
Qed.

Lemma strip_citations_keeps_clean (skip : nat) (s : string) :
  Str.contains "-" s = false → Str.contains "-" (strip_citations_from skip s) = false.
Proof.
  revert skip. induction s as [|c s IH]; intros skip; [by destruct skip|].
  rewrite contains_hyphen_cons. destruct (Ascii.eqb c "-") eqn:Hc; [done|]. intros Hrest.
  destruct skip as [|k].
  - change (strip_citations_from 0 (String c s))
      with (match citation_at (String c s) with
            | Some n => strip_citations_from n s
            | None => String c (strip_citations_from 0 s)
            end).
    destruct (citation_at (String c s)); [by apply IH|].
    rewrite contains_hyphen_cons, Hc. by apply IH.
  - change (strip_citations_from (S k) (String c s)) with (strip_citations_from k s).
    by apply IH.
Qed.

(** X22. The constructor of the NLTK summarizer: when it returns, the text
    of the object is the loader's text after [_sanitize], it holds no
    hyphen, the chunks join to it, and the chunk size is 4096. *)
Theorem new_spec (fs : gmap string string) (pdf : Converter.Reader)
    (re : Converter.Patterns) (stop : gset string) (name : string)
    (self : PDFSummarizer) :
  new fs pdf re stop name = Ok self →
  (∃ loaded, Converter.init fs pdf re name = Ok loaded
             ∧ text self = _sanitize (Converter.text loaded))
  ∧ ¬ Str.occurs "-" (text self)
  ∧ Str.cat (chunks self) = text self
  ∧ CHUNK_SIZE self = 4096 ∧ stop_words self = stop.
Proof.
  unfold new. intros (loaded & Hloaded & Hinit)%bind_Ok.
  unfold init in Hinit. rewrite split_text_positive in Hinit by lia.
  apply bind_Ok in Hinit as (cs & [= <-] & [= <-]).
  cbn [text chunks CHUNK_SIZE stop_words].
  split; [by exists loaded|]. split; [|split; [|done]].
  - rewrite <- contains_spec. apply not_true_iff_false.
    unfold _sanitize, strip_citations, strip_urls.
    apply strip_citations_keeps_clean, strip_urls_keeps_clean.
    apply converter_init_iff in Hloaded as (content & pages & _ & _ & _ & ->).
    apply drop_hyphens_clean.
  - replace (Z.to_nat (Str.len (_sanitize (Converter.text loaded))))
      with (Z.to_nat (Str.len (_sanitize (Converter.text loaded)) - 0)) by (f_equal; lia).
    rewrite range_up_chunks; [done|lia|lia|]. unfold Str.len. lia.
Qed.

Lemma new_spec_witness :
  (∃ self, new {["paper.pdf" := "%PDF-1.4 ..."]}
             (λ _, Ok ["Well-known facts."; "See http://x.y [1]."])
             {| Converter.sub_email := id; Converter.sub_url := id |} ∅ "paper.pdf"
           = Ok self)
  ∧ ∃ self,
      (∃ loaded, Converter.init {["paper.pdf" := "%PDF-1.4 ..."]}
                   (λ _, Ok ["Well-known facts."; "See http://x.y [1]."])
                   {| Converter.sub_email := id; Converter.sub_url := id |} "paper.pdf"
                 = Ok loaded
                 ∧ text self = _sanitize (Converter.text loaded))
      ∧ ¬ Str.occurs "-" (text self)
      ∧ Str.cat (chunks self) = text self
      ∧ CHUNK_SIZE self = 4096 ∧ stop_words self = ∅.
Proof.
  assert (∃ self, new {["paper.pdf" := "%PDF-1.4 ..."]}
                    (λ _, Ok ["Well-known facts."; "See http://x.y [1]."])
                    {| Converter.sub_email := id; Converter.sub_url := id |} ∅ "paper.pdf"
                  = Ok self) as [self Hrun] by (eexists; vm_compute; reflexivity).
  split; [by exists self|]. exists self.
  exact (new_spec _ _ _ _ _ self Hrun).
Defined.

Example new_example :
  (self ← new {["paper.pdf" := "%PDF-1.4 ..."]}
            (λ _, Ok ["Well-known facts."; "See http://x.y [1]."])
            {| Converter.sub_email := id; Converter.sub_url := id |} ∅ "paper.pdf";
   Ok (text self, chunks self))
  = Ok ("Wellknown facts. See  .", ["Wellknown facts. See  ."]).
Proof. vm_compute. reflexivity. Qed.

(** ** The shape of the corrected summary *)

Lemma spaced_from_weaken (s : string) : spaced_from true s = true → spaced_from false s = true.
Proof.
  destruct s as [|c s]; [done|]. simpl. destruct (Str.is_space c); [|done].
  rewrite andb_false_r. done.
Qed.

Lemma collapse_spaced (in_run : bool) (s : string) :
  spaced_from in_run (Str.collapse_from in_run s) = true.
Proof.
  revert in_run. induction s as [|c s IH]; intros in_run; [done|].
  change (Str.collapse_from in_run (String c s))
    with (if Str.is_space c
          then (if in_run then Str.collapse_from true s
                else String " " (Str.collapse_from true s))
          else String c (Str.collapse_from false s)).
  destruct (Str.is_space c) eqn:Hc.
  - destruct in_run; [apply IH|].
    change (spaced_from false (String " " (Str.collapse_from true s)))
      with (spaced_from true (Str.collapse_from true s)). apply IH.
  - change (spaced_from in_run (String c (Str.collapse_from false s)))
      with (if Str.is_space c
            then Ascii.eqb c " " && negb in_run && spaced_from true (Str.collapse_from false s)
            else spaced_from false (Str.collapse_from false s)).
    rewrite Hc. apply IH.
Qed.

Lemma spaced_cons (after_space : bool) (c : ascii) (s : string) :
  spaced_from after_space (String c s)
  = if Str.is_space c then Ascii.eqb c " " && negb after_space && spaced_from true s
    else spaced_from false s.
Proof. reflexivity. Qed.

Lemma tidy_cons (after_space : bool) (c : ascii) (s : string) :
  tidy_from after_space (String c s)
  = if Str.is_space c then Ascii.eqb c " " && negb after_space && tidy_from true s
    else tidy_from false s.
Proof. reflexivity. Qed.

Lemma lstrip_spaced (s : string) :
  spaced_from false s = true → spaced_from true (Str.lstrip s) = true.
Proof.
  induction s as [|c s IH]; [done|]. rewrite spaced_cons, lstrip_cons.
  destruct (Str.is_space c) eqn:Hc.
  - intros [_ Hrest]%andb_true_iff. by apply IH, spaced_from_weaken.
  - intros Hrest. by rewrite spaced_cons, Hc.
Qed.

Lemma rstrip_tidy (after_space : bool) (s : string) :
  spaced_from after_space s = true →
  Str.rstrip s = "" ∨ tidy_from after_space (Str.rstrip s) = true.
Proof.
  revert after_space. induction s as [|c s IH]; intros after_space; [by left|].
  rewrite spaced_cons, rstrip_cons. destruct (Str.is_space c) eqn:Hc.
  - intros [Hhead Hrest]%andb_true_iff.
    destruct (IH true Hrest) as [->|Htidy]; [by left|].
    destruct (Str.rstrip s) as [|d r] eqn:Hr; [done|]. right.
    by rewrite tidy_cons, Hc, Hhead.
  - intros Hrest. right.
    destruct (IH false Hrest) as [->|Htidy]; [by rewrite tidy_cons, Hc|].
    destruct (Str.rstrip s) as [|d r] eqn:Hr; by rewrite tidy_cons, Hc.
Qed.

Lemma render_tidy (clean_summary : list string) :
  tidy (render clean_summary) = true.
Proof.
  unfold render, Str.strip, Str.collapse.
  pose proof (collapse_spaced false (Str.join " " clean_summary)) as Hspaced.
  apply lstrip_spaced, rstrip_tidy in Hspaced as [->|Htidy]; [done|].
  unfold tidy. by destruct (Str.rstrip _).
Qed.

(** X23. The summary that the corrector leaves on the object is tidy: it
    neither starts nor ends with white space, and the only white space in
    it are single blanks between the tokens. *)
Theorem correct_summary_tidy (lib : Libraries) (self self' : PDFSummarizer) :
  _correct_summary lib self = Ok self' → tidy (summary self') = true.
Proof.
  unfold _correct_summary, corrected.
  intros (s & Hs & [= <-])%bind_Ok.
  apply bind_Ok in Hs as (tokens & _ & Hs).
  apply bind_Ok in Hs as (clean & _ & [= <-]).
  apply render_tidy.
Qed.

Lemma correct_summary_tidy_witness :
  _correct_summary dict_lib (set_summary "  the   quickbrown dog. " small_self)
  = Ok (set_summary "the quick brown dog ." small_self)
  ∧ tidy (summary (set_summary "the quick brown dog ." small_self)) = true.
Proof.
  split; [vm_compute; reflexivity|].
  apply (correct_summary_tidy dict_lib (set_summary "  the   quickbrown dog. " small_self)).
  vm_compute; reflexivity.
Defined.
